(** * Liquid fill gauge (src/plots/liquid/shapes/liquid.ts)

    A shallow embedding of the wave-path generator, the style resolvers and
    the shape composer of the liquid fill gauge, and the properties of them
    that the specification states.

    Conventions of the embedding:
    - a JavaScript number is a real number ([R]); [Math.PI] is [PI],
      [Math.ceil] is [Zceil], [Math.min] is [Rmin].  Rounding, NaN and the
      infinities of IEEE doubles are outside this model; the module
      [Double] has the numeric functions again in binary64, to evaluate
      the code where rounding decides;
    - an object used as a bag of attributes is a [gmap string jsval];
    - host calls that may throw run in a small state-and-exception monad. *)

From Stdlib Require Import Reals Lra Lia ZArith List.
From Stdlib Require PrimFloat FloatOps SpecFloat Uint63.
From Equations Require Import Equations.
From stdpp Require Import gmap strings pretty.
Import ListNotations.

(** ** Numbers and the sine approximation *)

Module Wave.
Local Open Scope R_scope.

(** [function lerp(a, b, factor)] *)
Definition lerp (a b factor : R) : R := (1 - factor) * a + factor * b.

(** A control point [[x, y]]. *)
Definition Pos : Type := (R * R)%type.

(** [function getWaterWavePositions(x, stage, waveLength, amplitude)]: the
    three control points of one quarter of the wave.  The last [return] is
    reached by every stage other than 0, 1 and 2. *)
Definition getWaterWavePositions (x : R) (stage : nat) (waveLength amplitude : R)
  : Pos * Pos * Pos :=
  match stage with
  | 0%nat =>
      ((x + ((1 / 2) * waveLength) / PI / 2, amplitude / 2),
       (x + ((1 / 2) * waveLength) / PI, amplitude),
       (x + waveLength / 4, amplitude))
  | 1%nat =>
      ((x + (((1 / 2) * waveLength) / PI / 2) * (PI - 2), amplitude),
       (x + (((1 / 2) * waveLength) / PI / 2) * (PI - 1), amplitude / 2),
       (x + waveLength / 4, 0))
  | 2%nat =>
      ((x + ((1 / 2) * waveLength) / PI / 2, (- amplitude) / 2),
       (x + ((1 / 2) * waveLength) / PI, - amplitude),
       (x + waveLength / 4, - amplitude))
  | _ =>
      ((x + (((1 / 2) * waveLength) / PI / 2) * (PI - 2), - amplitude),
       (x + (((1 / 2) * waveLength) / PI / 2) * (PI - 1), (- amplitude) / 2),
       (x + waveLength / 4, 0))
  end.

(** The heights of the three points and the abscissa of the last one. *)
Definition ysOf (pos : Pos * Pos * Pos) : R * R * R :=
  (snd (fst (fst pos)), snd (snd (fst pos)), snd (snd pos)).
Definition endXOf (pos : Pos * Pos * Pos) : R := fst (snd pos).

(** Path commands [['M', x, y]], [['C', x1, y1, x2, y2, x, y]],
    [['L', x, y]] and [['Z']]. *)
Inductive PathCommand : Type :=
| CmdM (x y : R)
| CmdC (x1 y1 x2 y2 x y : R)
| CmdL (x y : R)
| CmdZ.

Definition is_M (c : PathCommand) : bool :=
  match c with CmdM _ _ => true | _ => false end.
Definition is_C (c : PathCommand) : bool :=
  match c with CmdC _ _ _ _ _ _ => true | _ => false end.
Definition is_L (c : PathCommand) : bool :=
  match c with CmdL _ _ => true | _ => false end.
Definition is_Z (c : PathCommand) : bool :=
  match c with CmdZ => true | _ => false end.

(** The comparisons [a < b] and [a > b] of the two [while] conditions. *)
Definition ltb (a b : R) : bool := if Rlt_dec a b then true else false.
Definition gtb (a b : R) : bool := if Rgt_dec a b then true else false.

(** A terminating run of [while (cond(s)) s = body(s)] from [s] to [s']. *)
Inductive while_run {S : Type} (cond : S -> bool) (body : S -> S) : S -> S -> Prop :=
| while_exit s : cond s = false -> while_run cond body s s
| while_iter s s' :
    cond s = true -> while_run cond body (body s) s' -> while_run cond body s s'.

(** The same loop with a bound on the number of tests of the condition. *)
Fixpoint while_fuel {S : Type} (cond : S -> bool) (body : S -> S)
  (fuel : nat) (s : S) : option S :=
  match fuel with
  | O => None
  | Datatypes.S n => if cond s then while_fuel cond body n (body s) else Some s
  end.

(** [while (_phase < -Math.PI * 2) _phase += Math.PI * 2;] *)
Equations? phase_up (p : R) : R by wf (Z.to_nat (Zceil ((- p) / (PI * 2)))) lt :=
  phase_up p with Rlt_dec p (- PI * 2) => {
    | left _ := phase_up (p + PI * 2);
    | right _ := p }.
Proof.
  pose proof PI_RGT_0 as Hpi.
  replace (- (p + PI * 2) / (PI * 2)) with ((- p) / (PI * 2) + IZR (-1))
    by (field; lra).
  rewrite Zceil_addz.
  assert (1 < (- p) / (PI * 2)) as H1.
  { apply Rmult_lt_reg_r with (PI * 2); [lra|].
    unfold Rdiv. rewrite Rmult_assoc, Rinv_l by lra. lra. }
  pose proof (Zceil_bound ((- p) / (PI * 2))) as [_ Hb].
  assert (1 < Zceil ((- p) / (PI * 2)))%Z by (apply lt_IZR; lra).
  lia.
Qed.

(** [while (_phase > 0) _phase -= Math.PI * 2;] *)
Equations? phase_down (p : R) : R by wf (Z.to_nat (Zceil (p / (PI * 2)))) lt :=
  phase_down p with Rgt_dec p 0 => {
    | left _ := phase_down (p - PI * 2);
    | right _ := p }.
Proof.
  pose proof PI_RGT_0 as Hpi.
  replace ((p - PI * 2) / (PI * 2)) with (p / (PI * 2) + IZR (-1))
    by (field; lra).
  rewrite Zceil_addz.
  assert (0 < p / (PI * 2)) as H1.
  { apply Rmult_lt_reg_r with (PI * 2); [lra|].
    unfold Rdiv. rewrite Rmult_assoc, Rinv_l by lra. lra. }
  pose proof (Zceil_bound (p / (PI * 2))) as [_ Hb].
  assert (0 < Zceil (p / (PI * 2)))%Z by (apply lt_IZR; lra).
  lia.
Qed.

(** The two loops in sequence: the value of [_phase] after them. *)
Definition normalizePhase (phase : R) : R := phase_down (phase_up phase).

(** [const curves = Math.ceil(((2 * radius) / waveLength) * 4) * 2] *)
Definition curvesOf (radius waveLength : R) : Z :=
  (Zceil (((2 * radius) / waveLength) * 4) * 2)%Z.

(** [const left = cx - radius + _phase - radius * 2], where [_phase] has
    been turned into a horizontal offset by
    [_phase = (_phase / Math.PI / 2) * waveLength]. *)
Definition leftOf (radius waveLength phase cx : R) : R :=
  let _phase := normalizePhase phase in
  let _phase := (_phase / PI / 2) * waveLength in
  cx - radius + _phase - radius * 2.

(** The ['C'] command pushed by iteration [c] of the [for] loop. *)
Definition curveCommand (waveLength amplitude left waterLevel : R) (c : nat)
  : PathCommand :=
  let stage := (c mod 4)%nat in
  let '(p0, p1, p2) :=
    getWaterWavePositions ((INR c * waveLength) / 4) stage waveLength amplitude in
  CmdC (fst p0 + left) (- snd p0 + waterLevel)
       (fst p1 + left) (- snd p1 + waterLevel)
       (fst p2 + left) (- snd p2 + waterLevel).

(** One iteration of [for (let c = 0; c < curves; ++c)] on the pair
    [(path, waveRight)]. *)
Definition waveStep (curves : Z) (waveLength amplitude left waterLevel : R)
  (st : list PathCommand * R) (c : nat) : list PathCommand * R :=
  let stage := (c mod 4)%nat in
  let pos := getWaterWavePositions ((INR c * waveLength) / 4) stage waveLength amplitude in
  (fst st ++ [curveCommand waveLength amplitude left waterLevel c],
   if (Z.of_nat c =? curves - 1)%Z then fst (snd pos) else snd st).

(** The whole [for] loop, from [path = [['M', left, waterLevel]]] and
    [waveRight = 0]; it runs for c = 0, 1, ... while [c < curves]. *)
Definition waveLoop (curves : Z) (waveLength amplitude left waterLevel : R)
  : list PathCommand * R :=
  fold_left (waveStep curves waveLength amplitude left waterLevel)
            (seq 0 (Z.to_nat curves))
            ([CmdM left waterLevel], 0).

(** [function getWaterWavePath(radius, waterLevel, waveLength, phase,
    amplitude, cx, cy)] *)
Definition getWaterWavePath
  (radius waterLevel waveLength phase amplitude cx cy : R) : list PathCommand :=
  let curves := curvesOf radius waveLength in
  let left := leftOf radius waveLength phase cx in
  let '(path, waveRight) := waveLoop curves waveLength amplitude left waterLevel in
  path ++ [CmdL (waveRight + left) (cy + radius);
           CmdL left (cy + radius);
           CmdZ].

(** The heights of the points of a command. *)
Definition cmdYs (c : PathCommand) : list R :=
  match c with
  | CmdM _ y => [y]
  | CmdC _ y1 _ y2 _ y => [y1; y2; y]
  | CmdL _ y => [y]
  | CmdZ => []
  end.

End Wave.

(** ** The same numbers in binary64

    The functions of [Wave] again, operation for operation, on the
    doubles JavaScript computes with: every [+], [-], [*] and [/] rounds to
    nearest, ties to even.  The [while] loops run on fuel, and the curve
    count is an integer ([None] when [Math.ceil] is given NaN or an
    infinity, where the source's [for] loop does not end). *)

Module Double.
Import PrimFloat.
Local Open Scope float_scope.

(** [Math.PI], the double 3.141592653589793. *)
Definition PI : float := 0x1.921fb54442d18p+1.

(** [function lerp(a, b, factor)] *)
Definition lerp (a b factor : float) : float := (1 - factor) * a + factor * b.

Definition Pos : Type := (float * float)%type.

(** [function getWaterWavePositions(x, stage, waveLength, amplitude)] *)
Definition getWaterWavePositions (x : float) (stage : nat) (waveLength amplitude : float)
  : Pos * Pos * Pos :=
  match stage with
  | 0%nat =>
      ((x + ((1 / 2) * waveLength) / PI / 2, amplitude / 2),
       (x + ((1 / 2) * waveLength) / PI, amplitude),
       (x + waveLength / 4, amplitude))
  | 1%nat =>
      ((x + (((1 / 2) * waveLength) / PI / 2) * (PI - 2), amplitude),
       (x + (((1 / 2) * waveLength) / PI / 2) * (PI - 1), amplitude / 2),
       (x + waveLength / 4, 0))
  | 2%nat =>
      ((x + ((1 / 2) * waveLength) / PI / 2, (- amplitude) / 2),
       (x + ((1 / 2) * waveLength) / PI, - amplitude),
       (x + waveLength / 4, - amplitude))
  | _ =>
      ((x + (((1 / 2) * waveLength) / PI / 2) * (PI - 2), - amplitude),
       (x + (((1 / 2) * waveLength) / PI / 2) * (PI - 1), (- amplitude) / 2),
       (x + waveLength / 4, 0))
  end.

Inductive PathCommand : Type :=
| CmdM (x y : float)
| CmdC (x1 y1 x2 y2 x y : float)
| CmdL (x y : float)
| CmdZ.

(** [Math.ceil] of a finite double, as an integer. *)
Definition ceil (x : float) : option Z :=
  match FloatOps.Prim2SF x with
  | SpecFloat.S754_zero _ => Some 0%Z
  | SpecFloat.S754_finite negative m e =>
      let whole := if (0 <=? e)%Z then (Z.pos m * 2 ^ e)%Z
                   else (Z.pos m / 2 ^ (- e))%Z in
      let exact := if (0 <=? e)%Z then true
                   else (Z.pos m mod 2 ^ (- e) =? 0)%Z in
      Some (if negative then (- whole)%Z
            else if exact then whole else (whole + 1)%Z)
  | _ => None
  end.

(** The double of a loop counter. *)
Definition ofNat (c : nat) : float := of_uint63 (Uint63.of_Z (Z.of_nat c)).

(** The conditions and the bodies of the two [while] loops. *)
Definition belowRange (p : float) : bool := p <? - PI * 2.
Definition addTurn (p : float) : float := p + PI * 2.
Definition aboveRange (p : float) : bool := 0 <? p.
Definition subTurn (p : float) : float := p - PI * 2.

(** The two loops in sequence, each on [fuel]. *)
Definition normalizePhase (fuel : nat) (phase : float) : option float :=
  match Wave.while_fuel belowRange addTurn fuel phase with
  | Some p => Wave.while_fuel aboveRange subTurn fuel p
  | None => None
  end.

(** [const curves = Math.ceil(((2 * radius) / waveLength) * 4) * 2] *)
Definition curvesOf (radius waveLength : float) : option Z :=
  match ceil (((2 * radius) / waveLength) * 4) with
  | Some n => Some (n * 2)%Z
  | None => None
  end.

(** [const left = cx - radius + _phase - radius * 2] after
    [_phase = (_phase / Math.PI / 2) * waveLength]. *)
Definition leftOf (radius waveLength _phase cx : float) : float :=
  let _phase := (_phase / PI / 2) * waveLength in
  cx - radius + _phase - radius * 2.

(** One iteration of the [for] loop on [(path, waveRight)], and the loop. *)
Definition waveStep (curves : Z) (waveLength amplitude left waterLevel : float)
  (st : list PathCommand * float) (c : nat) : list PathCommand * float :=
  let stage := (c mod 4)%nat in
  let pos := getWaterWavePositions ((ofNat c * waveLength) / 4) stage waveLength amplitude in
  let '(p0, p1, p2) := pos in
  (fst st ++ [CmdC (fst p0 + left) (- snd p0 + waterLevel)
                   (fst p1 + left) (- snd p1 + waterLevel)
                   (fst p2 + left) (- snd p2 + waterLevel)],
   if (Z.of_nat c =? curves - 1)%Z then fst p2 else snd st).

Definition waveLoop (curves : Z) (waveLength amplitude left waterLevel : float)
  : list PathCommand * float :=
  fold_left (waveStep curves waveLength amplitude left waterLevel)
            (seq 0 (Z.to_nat curves))
            ([CmdM left waterLevel], 0).

(** [function getWaterWavePath(radius, waterLevel, waveLength, phase,
    amplitude, cx, cy)]: the path and, beside it, [waveRight]. *)
Definition getWaterWavePath (fuel : nat)
  (radius waterLevel waveLength phase amplitude cx cy : float)
  : option (list PathCommand * float) :=
  match curvesOf radius waveLength, normalizePhase fuel phase with
  | Some curves, Some _phase =>
      let left := leftOf radius waveLength _phase cx in
      let '(path, waveRight) := waveLoop curves waveLength amplitude left waterLevel in
      Some (path ++ [CmdL (waveRight + left) (cy + radius);
                     CmdL left (cy + radius);
                     CmdZ],
            waveRight)
  | _, _ => None
  end.

(** The abscissa a path starts at. *)
Definition startX (path : list PathCommand) : option float :=
  match path with
  | CmdM x _ :: _ => Some x
  | _ => None
  end.

End Double.

(** ** Style resolution *)

Module Style.
Local Open Scope R_scope.

(** The JavaScript values that occur in a configuration: [undefined],
    [null], booleans, numbers and strings. *)
Inductive jsval : Type :=
| JUndefined
| JNull
| JBool (b : bool)
| JNum (r : R)
| JStr (s : string).

(** An attribute object. *)
Abbreviation obj := (gmap string jsval).

(** ToBoolean: what [if (v)] and [!v] test. *)
Definition truthy (v : jsval) : bool :=
  match v with
  | JUndefined => false
  | JNull => false
  | JBool b => b
  | JNum r => if Req_dec_T r 0 then false else true
  | JStr s => match s with EmptyString => false | _ => true end
  end.

(** [isNumber] of @antv/util: a type test. *)
Definition isNumber (v : jsval) : bool :=
  match v with JNum _ => true | _ => false end.

(** Property read [o.k]: [undefined] when the property is absent. *)
Definition get (o : obj) (k : string) : jsval := default JUndefined (o !! k).

(** Object spread [{ ...base, ...src }] onto the properties [base]; an
    [undefined] source spreads nothing. *)
Definition spread (base : obj) (src : option obj) : obj :=
  match src with
  | Some s => s ∪ base
  | None => base
  end.

(** [mix] of @antv/util copies onto [dist] the own properties of a source
    whose value is not [undefined] (the key [constructor] is skipped), and
    ignores a missing source. *)
Definition mixable (kv : string * jsval) : Prop :=
  kv.2 ≠ JUndefined ∧ kv.1 ≠ "constructor"%string.

#[global] Instance mixable_dec kv : Decision (mixable kv).
Proof.
  unfold mixable. destruct kv as [k [| | b | r | s]]; simpl.
  1: right; intros [H _]; by apply H.
  all: destruct (decide (k = "constructor"%string)) as [->|Hk];
    [right; intros [_ H]; by apply H | left; split; [discriminate | done]].
Defined.

Definition mix1 (dist : obj) (src : option obj) : obj :=
  match src with
  | Some s => filter mixable s ∪ dist
  | None => dist
  end.

Definition mix (dist : obj) (src1 src2 : option obj) : obj :=
  mix1 (mix1 dist src1) src2.

(** The fields of the shape configuration [cfg] that this file reads. *)
Record Point : Type := { x : R; y : R }.

Record Cfg : Type := {
  style : option obj;
  color : jsval;
  opacity : jsval;
  customInfo : option obj;
  points : list Point
}.

(** [function getFillAttrs(cfg)] *)
Definition getFillAttrs (cfg : Cfg) : obj :=
  let attrs := spread {[ "opacity"%string := JNum 1 ]} (style cfg) in
  if truthy (color cfg) && negb (truthy (get attrs "fill")) then
    <[ "fill"%string := color cfg ]> attrs
  else attrs.

(** [function getLineAttrs(cfg)] *)
Definition getLineAttrs (cfg : Cfg) : obj :=
  let defaultAttrs : obj :=
    list_to_map [("fill"%string, JStr "#fff");
                 ("fillOpacity"%string, JNum 0);
                 ("lineWidth"%string, JNum 2)] in
  let attrs := mix ∅ (Some defaultAttrs) (style cfg) in
  let attrs :=
    if truthy (color cfg) && negb (truthy (get attrs "stroke")) then
      <[ "stroke"%string := color cfg ]> attrs
    else attrs in
  if isNumber (opacity cfg) then
    <[ "opacity"%string := opacity cfg ]>
      (<[ "strokeOpacity"%string := opacity cfg ]> attrs)
  else attrs.

End Style.

(** ** The host canvas and the composer *)

Module Gauge.
Import Wave Style.
Local Open Scope R_scope.

(** What [getBBox()] returns. *)
Record BBox : Type := { minX : R; maxX : R; minY : R; maxY : R }.

(** The clip shape [{ type: 'circle', attrs: { x, y, r } }] of a group. *)
Record Circle : Type := { circle_x : R; circle_y : R; circle_r : R }.

(** ToNumber of a value used as an operand of [*]; [None] stands for NaN.
    How a string converts is left to [strToNum]. *)
Definition toNumber (strToNum : string -> option R) (v : jsval) : option R :=
  match v with
  | JUndefined => None
  | JNull => Some 0
  | JBool b => Some (if b then 1 else 0)
  | JNum r => Some r
  | JStr s => strToNum s
  end.

(** The two kinds of shape configuration handed to [addShape]:
    [addShape('path', { name, attrs: { path, fill, opacity } })] and
    [addShape('circle', { name, attrs })].  The opacity of a path is the
    product [number * opacity], NaN ([None]) included. *)
Inductive Shape : Type :=
| PathShape (name : string) (path : list PathCommand) (fill : jsval)
    (opacity : option R)
| CircleShape (name : string) (attrs : obj).

Definition is_path (s : Shape) : bool :=
  match s with PathShape _ _ _ _ => true | CircleShape _ _ => false end.
Definition is_circle (s : Shape) : bool :=
  match s with PathShape _ _ _ _ => false | CircleShape _ _ => true end.

(** A group of the canvas: its name, its clip shape and its children. *)
Record Group : Type := {
  group_name : string;
  group_clip : option Circle;
  group_children : list Shape
}.

(** A child of the container: a group (by reference into the store of
    groups) or a shape. *)
Inductive Child : Type :=
| ChildGroup (g : nat)
| ChildShape (s : Shape).

Definition appendChildren (ss : list Shape) (gr : Group) : Group :=
  {| group_name := group_name gr;
     group_clip := group_clip gr;
     group_children := group_children gr ++ ss |}.

Inductive Exn : Type :=
| TypeError (msg : string)
| HostError (msg : string).

(** The parameters of the wave of index [i] among [waveCount], as the
    specification words them. *)
Definition specFactor (waveCount i : nat) : R :=
  if (waveCount <=? 1)%nat then 0 else INR i / (INR waveCount - 1).
Definition specAmplitude (boundingWidth : R) (waveCount i : nat) : R :=
  boundingWidth / lerp 56 64 (specFactor waveCount i).
Definition specOpacity (baseOpacity : R) (waveCount i : nat) : R :=
  lerp 0.6 0.3 (specFactor waveCount i) * baseOpacity.
Definition specDuration (waveCount i : nat) : R :=
  lerp 5000 3500 (specFactor waveCount i).

Section Host.

(** The matrices of utils/matrix and its [transform], which this file only
    passes on to [animate]. *)
Context {Matrix : Type}.
Variable transform : list (string * R * R) -> Matrix.

(** [this.parsePoint] and [getBBox] of the host. *)
Variable parsePoint : Point -> Point.
Variable getBBox : Circle -> BBox.

(** [this.parsePoint({ x: Infinity, y })]: what the host makes of the
    point [draw] asks for when [cfg.points] is empty, [minX] being then
    [Infinity], which is no real number. *)
Variable parsePointAtInfinity : R -> Point.

(** Conversion of a string operand of [*]. *)
Variable strToNum : string -> option R.

(** The second argument of [animate]. *)
Record AnimateCfg : Type := { duration : R; repeat : bool }.

(** An animation the host has accepted. *)
Record Animation : Type := {
  anim_target : Shape;
  anim_matrix : Matrix;
  anim_cfg : AnimateCfg
}.

(** The host's answer to [shape.animate({ matrix }, cfg)]: [Some e] when
    the call throws [e] (for instance, no canvas is attached). *)
Variable animateThrows : Shape -> Matrix -> AnimateCfg -> option Exn.

(** The state the code acts on: the container's children, the groups it
    refers to, the running animations and the console. *)
Record World : Type := {
  container : list Child;
  groups : list Group;
  animations : list Animation;
  console : list string
}.

(** A computation either returns a value or throws, in a new state. *)
Inductive Result (A : Type) : Type :=
| Ok (a : A) (w : World)
| Throw (e : Exn) (w : World).
Arguments Ok {A} a w.
Arguments Throw {A} e w.

Definition M (A : Type) : Type := World -> Result A.

Definition ret {A} (a : A) : M A := fun w => Ok a w.
Definition bind {A B} (m : M A) (k : A -> M B) : M B :=
  fun w => match m w with
           | Ok a w' => k a w'
           | Throw e w' => Throw e w'
           end.
Definition throw {A} (e : Exn) : M A := fun w => Throw e w.

(** [try { m } catch (e) { h(e) }] *)
Definition tryCatch {A} (m : M A) (h : Exn -> M A) : M A :=
  fun w => match m w with
           | Ok a w' => Ok a w'
           | Throw e w' => h e w'
           end.

#[export] Instance M_ret : MRet M := @ret.
#[export] Instance M_bind : MBind M := fun A B k m => bind m k.

(** [for (let i = 0; i < n; i++) body(i)] *)
Fixpoint forRange (body : nat -> M unit) (i n : nat) : M unit :=
  match n with
  | O => ret tt
  | S n' => body i;; forRange body (S i) n'
  end.

(** [container.addGroup({ name })]: a new, empty group, returned by
    reference. *)
Definition addGroup (name : string) : M nat :=
  fun w =>
    let g := length (groups w) in
    Ok g {| container := container w ++ [ChildGroup g];
            groups := groups w ++ [{| group_name := name;
                                      group_clip := None;
                                      group_children := [] |}];
            animations := animations w;
            console := console w |}.

Definition updGroup (f : Group -> Group) (g : nat) : M unit :=
  fun w => Ok tt {| container := container w;
                    groups := alter f g (groups w);
                    animations := animations w;
                    console := console w |}.

(** [group.setClip({ type: 'circle', attrs: { x, y, r } })] *)
Definition setClip (g : nat) (c : Circle) : M unit :=
  updGroup (fun gr => {| group_name := group_name gr;
                         group_clip := Some c;
                         group_children := group_children gr |}) g.

(** [group.get('clipShape')] *)
Definition getClipShape (g : nat) : M (option Circle) :=
  fun w => Ok (gr ← groups w !! g; group_clip gr) w.

(** [group.addShape(type, cfg)]: the shape becomes the last child of the
    group and is returned. *)
Definition groupAddShape (g : nat) (s : Shape) : M Shape :=
  updGroup (appendChildren [s]) g;;
  ret s.

(** [container.addShape(type, cfg)] *)
Definition containerAddShape (s : Shape) : M Shape :=
  fun w => Ok s {| container := container w ++ [ChildShape s];
                   groups := groups w;
                   animations := animations w;
                   console := console w |}.

(** [shape.animate({ matrix }, cfg)] *)
Definition animate (s : Shape) (m : Matrix) (cfg : AnimateCfg) : M unit :=
  fun w =>
    match animateThrows s m cfg with
    | Some e => Throw e w
    | None =>
        Ok tt {| container := container w;
                 groups := groups w;
                 animations := animations w ++
                   [{| anim_target := s; anim_matrix := m; anim_cfg := cfg |}];
                 console := console w |}
    end.

(** [console.error(msg)] *)
Definition consoleError (msg : string) : M unit :=
  fun w => Ok tt {| container := container w;
                    groups := groups w;
                    animations := animations w;
                    console := console w ++ [msg] |}.

(** The template string [`wave-path-${i}`]. *)
Definition waveName (i : nat) : string :=
  ("wave-path-" +:+ pretty i)%string.

(** The body of the loop of [addWaterWave] for the index [i]. *)
Definition addOneWave (x y level : R) (waveCount : nat) (fill opacity : jsval)
  (group : nat) (bbox : BBox) (width height radius : R) (duration : R)
  (i : nat) : M unit :=
  let factor := if (waveCount <=? 1)%nat then 0
                else INR i / (INR waveCount - 1) in
  wave ← groupAddShape group
            (PathShape (waveName i)
               (getWaterWavePath radius (minY bbox + height * level)
                  (width / 4) 0 (width / lerp 56 64 factor) x y)
               fill
               (o ← toNumber strToNum opacity; Some (lerp 0.6 0.3 factor * o)));
  tryCatch
    (let matrix := transform [("t"%string, width / 2, 0)] in
     animate wave matrix
       {| duration := lerp duration (0.7 * duration) factor; repeat := true |})
    (fun e => consoleError "off-screen group animate error!").

(** [function addWaterWave(x, y, level, waveCount, waveAttrs, group, clip,
    radius)] *)
Definition addWaterWave (x y level : R) (waveCount : nat) (waveAttrs : obj)
  (group : nat) (clip : Circle) (radius : R) : M unit :=
  let fill := get waveAttrs "fill" in
  let opacity := get waveAttrs "opacity" in
  let bbox := getBBox clip in
  let width := maxX bbox - minX bbox in
  let height := maxY bbox - minY bbox in
  let duration := 5000 in
  forRange (addOneWave x y level waveCount fill opacity group bbox
              width height radius duration) 0 waveCount.

(** What a run of [addWaterWave] leaves behind, wave by wave: the shape
    of index [i], the animation asked for it, and what the host's answer
    adds to the animations and to the console. *)
Definition waveShapeAt (x y level : R) (waveCount : nat) (fill opacity : jsval)
  (bbox : BBox) (radius : R) (i : nat) : Shape :=
  let width := maxX bbox - minX bbox in
  let height := maxY bbox - minY bbox in
  PathShape (waveName i)
    (getWaterWavePath radius (minY bbox + height * level) (width / 4) 0
       (specAmplitude width waveCount i) x y)
    fill
    (o ← toNumber strToNum opacity; Some (specOpacity o waveCount i)).

Definition waveAnimCfg (waveCount i : nat) : AnimateCfg :=
  {| duration := specDuration waveCount i; repeat := true |}.

Definition acceptedAnimation (width : R) (waveCount : nat) (shapeAt : nat -> Shape)
  (i : nat) : list Animation :=
  let matrix := transform [("t"%string, width / 2, 0)] in
  match animateThrows (shapeAt i) matrix (waveAnimCfg waveCount i) with
  | Some _ => []
  | None => [{| anim_target := shapeAt i;
                anim_matrix := matrix;
                anim_cfg := waveAnimCfg waveCount i |}]
  end.

Definition rejectedAnimation (width : R) (waveCount : nat) (shapeAt : nat -> Shape)
  (i : nat) : list string :=
  let matrix := transform [("t"%string, width / 2, 0)] in
  match animateThrows (shapeAt i) matrix (waveAnimCfg waveCount i) with
  | Some _ => ["off-screen group animate error!"%string]
  | None => []
  end.

Definition withWaves (g : nat) (shapes : list Shape) (anims : list Animation)
  (msgs : list string) (w : World) : World :=
  {| container := container w;
     groups := alter (appendChildren shapes) g (groups w);
     animations := animations w ++ anims;
     console := console w ++ msgs |}.

(** [reduce(cfg.points, (r, p) => Math.min(r, p.x), Infinity)]; [None]
    stands for [Infinity], the result on an empty array. *)
Definition minOfX (ps : list Point) : option R :=
  fold_left (fun r p => Some (match r with
                              | None => x p
                              | Some r => Rmin r (x p)
                              end)) ps None.

(** The [draw] method of the shape [liquid-fill-gauge]; the container it
    returns is the one of the state.  A property read on [undefined]
    throws a TypeError: [cfg.customInfo.radius] at once, and
    [cfg.points[1].y] after the group [waves] and its clip have been
    made. *)
Definition draw (cfg : Cfg) : M unit :=
  let cx := 0.5 in
  let cy := 0.5 in
  customInfo ← match customInfo cfg with
               | Some ci => mret ci
               | None => throw (TypeError "cfg.customInfo is undefined")
               end;
  let radio := match get customInfo "radius" with
               | JNum r => r
               | _ => 0.9
               end in
  let minX := minOfX (points cfg) in
  let center := parsePoint {| x := cx; y := cy |} in
  let minXPoint := match minX with
                   | Some minX => parsePoint {| x := minX; y := cy |}
                   | None => parsePointAtInfinity cy
                   end in
  let halfWidth := x center - x minXPoint in
  let radius := Rmin halfWidth (y minXPoint * radio) in
  let waveAttrs := getFillAttrs cfg in
  waves ← addGroup "waves";
  setClip waves {| circle_x := x center;
                   circle_y := y center;
                   circle_r := radius |};;
  clipCircle ← getClipShape waves;
  p1 ← match points cfg !! 1%nat with
       | Some p => mret p
       | None => throw (TypeError "cfg.points[1] is undefined")
       end;
  clip ← match clipCircle with
         | Some c => mret c
         | None => throw (TypeError "clip is undefined")
         end;
  addWaterWave (x center) (y center) (1 - y p1) 3 waveAttrs waves clip
    (radius * 4);;
  containerAddShape
    (CircleShape "wrap"
       (mix (getLineAttrs cfg)
          (Some (list_to_map [("x"%string, JNum (x center));
                              ("y"%string, JNum (y center));
                              ("r"%string, JNum radius);
                              ("fill"%string, JStr "transparent")]))
          None));;
  mret tt.

(** A host and a configuration for the examples: the bounding box of a
    circle, a canvas-less host whose [animate] always throws, a state with
    nothing drawn, a state with one empty group, and the specification's
    gauge with the points (0, 0.5) and (1, 0.7). *)
Definition circleBBox (c : Circle) : BBox :=
  {| minX := circle_x c - circle_r c;
     maxX := circle_x c + circle_r c;
     minY := circle_y c - circle_r c;
     maxY := circle_y c + circle_r c |}.

Definition offscreenAnimate (s : Shape) (m : unit) (cfg : AnimateCfg) : option Exn :=
  Some (HostError "no canvas").

Definition emptyWorld : World :=
  {| container := []; groups := []; animations := []; console := [] |}.

Definition oneGroupWorld : World :=
  {| container := [ChildGroup 0];
     groups := [{| group_name := "waves";
                   group_clip := None;
                   group_children := [] |}];
     animations := [];
     console := [] |}.

Definition sampleCfg : Cfg :=
  {| style := None;
     color := JStr "#6a99f9";
     opacity := JUndefined;
     customInfo := Some ∅;
     points := [{| x := 0; y := 0.5 |}; {| x := 1; y := 0.7 |}] |}.

(** The name a shape was added under. *)
Definition shapeName (s : Shape) : string :=
  match s with
  | PathShape name _ _ _ => name
  | CircleShape name _ => name
  end.

(** * Properties *)

(** ** The composer *)

Lemma withWaves_nil g w : withWaves g [] [] [] w = w.
Proof.
  destruct w as [c gs a l]. unfold withWaves. simpl.
  rewrite !app_nil_r. f_equal.
  apply list_alter_id. intros [n cl ch]. unfold appendChildren. simpl.
  by rewrite app_nil_r.
Qed.

Lemma withWaves_compose g ss1 as1 ms1 ss2 as2 ms2 w :
  withWaves g ss2 as2 ms2 (withWaves g ss1 as1 ms1 w) =
  withWaves g (ss1 ++ ss2) (as1 ++ as2) (ms1 ++ ms2) w.
Proof.
  unfold withWaves. simpl. rewrite <- !app_assoc. f_equal.
  rewrite list_alter_alter_eq. apply list_alter_ext; [|done].
  intros [n cl ch] _. unfold appendChildren. simpl. by rewrite <- app_assoc.
Qed.

Lemma specDuration_code waveCount i :
  lerp 5000 (0.7 * 5000) (specFactor waveCount i) = specDuration waveCount i.
Proof. unfold specDuration, lerp. lra. Qed.

(** One turn of the loop never throws: the shape is added, and the host's
    answer decides between one more animation and one more message. *)
Lemma addOneWave_run x y level waveCount fill opacity g bbox radius i w :
  let width := maxX bbox - minX bbox in
  let height := maxY bbox - minY bbox in
  let shapeAt := waveShapeAt x y level waveCount fill opacity bbox radius in
  addOneWave x y level waveCount fill opacity g bbox width height radius 5000 i w =
  Ok tt (withWaves g [shapeAt i]
           (acceptedAnimation width waveCount shapeAt i)
           (rejectedAnimation width waveCount shapeAt i) w).
Proof.
  intros width height shapeAt.
  unfold addOneWave, acceptedAnimation, rejectedAnimation, waveAnimCfg.
  fold (specFactor waveCount i). rewrite specDuration_code.
  change (PathShape _ _ _ _) with (shapeAt i).
  unfold mbind, M_bind, bind, groupAddShape, updGroup, mbind, M_bind, bind,
    ret, tryCatch, animate, consoleError, withWaves. simpl.
  destruct (animateThrows _ _ _); simpl; by rewrite ?app_nil_r.
Qed.

Lemma forRange_waves x y level waveCount fill opacity g bbox radius n i w :
  let width := maxX bbox - minX bbox in
  let height := maxY bbox - minY bbox in
  let shapeAt := waveShapeAt x y level waveCount fill opacity bbox radius in
  forRange (addOneWave x y level waveCount fill opacity g bbox width height
              radius 5000) i n w =
  Ok tt (withWaves g (map shapeAt (seq i n))
           (flat_map (acceptedAnimation width waveCount shapeAt) (seq i n))
           (flat_map (rejectedAnimation width waveCount shapeAt) (seq i n)) w).
Proof.
  intros width height shapeAt. revert i w.
  induction n as [|n IH]; intros i w; simpl.
  - by rewrite withWaves_nil.
  - unfold mbind, M_bind, bind. rewrite addOneWave_run.
    fold width height shapeAt. rewrite IH, withWaves_compose. reflexivity.
Qed.

(** The whole of [addWaterWave], in closed form. *)
Lemma addWaterWave_run x y level waveCount waveAttrs g clip radius w :
  let bbox := getBBox clip in
  let width := maxX bbox - minX bbox in
  let shapeAt := waveShapeAt x y level waveCount (get waveAttrs "fill")
                   (get waveAttrs "opacity") bbox radius in
  addWaterWave x y level waveCount waveAttrs g clip radius w =
  Ok tt (withWaves g (map shapeAt (seq 0 waveCount))
           (flat_map (acceptedAnimation width waveCount shapeAt) (seq 0 waveCount))
           (flat_map (rejectedAnimation width waveCount shapeAt) (seq 0 waveCount))
           w).
Proof. intros. unfold addWaterWave. apply forRange_waves. Qed.

Lemma alter_last {A} (f : A -> A) (l : list A) (a : A) :
  alter f (length l) (l ++ [a]) = l ++ [f a].
Proof.
  rewrite <- (Nat.add_0_r (length l)). by rewrite alter_app_r.
Qed.

Lemma lookup_last {A} (l : list A) (a : A) : (l ++ [a]) !! length l = Some a.
Proof. apply list_lookup_middle. reflexivity. Qed.

Lemma minOfX_from ps r :
  exists m, fold_left (fun r p => Some (match r with
                                        | None => x p
                                        | Some r => Rmin r (x p)
                                        end)) ps (Some r) = Some m.
Proof.
  revert r. induction ps as [|p ps IH]; intros r; simpl; [by exists r | apply IH].
Qed.

Lemma minOfX_cons p ps : exists m, minOfX (p :: ps) = Some m.
Proof. unfold minOfX. simpl. apply minOfX_from. Qed.

(** The whole of [draw] on a configuration that has its [customInfo] and
    two points, in closed form. *)
Lemma draw_run cfg ci p0 p1 ps w :
  customInfo cfg = Some ci -> points cfg = p0 :: p1 :: ps ->
  exists leftmost,
    minOfX (points cfg) = Some leftmost /\
    let radio := match get ci "radius" with JNum r => r | _ => 0.9 end in
    let center := parsePoint {| x := 0.5; y := 0.5 |} in
    let minXPoint := parsePoint {| x := leftmost; y := 0.5 |} in
    let radius := Rmin (x center - x minXPoint) (y minXPoint * radio) in
    let clip := {| circle_x := x center; circle_y := y center; circle_r := radius |} in
    let bbox := getBBox clip in
    let width := maxX bbox - minX bbox in
    let shapeAt := waveShapeAt (x center) (y center) (1 - y p1) 3
                     (get (getFillAttrs cfg) "fill")
                     (get (getFillAttrs cfg) "opacity") bbox (radius * 4) in
    let ring := CircleShape "wrap"
                  (mix (getLineAttrs cfg)
                     (Some (list_to_map [("x"%string, JNum (x center));
                                         ("y"%string, JNum (y center));
                                         ("r"%string, JNum radius);
                                         ("fill"%string, JStr "transparent")]))
                     None) in
    draw cfg w =
    Ok tt {| container := container w ++
                          [ChildGroup (length (groups w)); ChildShape ring];
             groups := groups w ++
                       [{| group_name := "waves";
                           group_clip := Some clip;
                           group_children := map shapeAt (seq 0 3) |}];
             animations := animations w ++
                           flat_map (acceptedAnimation width 3 shapeAt) (seq 0 3);
             console := console w ++
                        flat_map (rejectedAnimation width 3 shapeAt) (seq 0 3) |}.
Proof.
  intros Hci Hps.
  destruct (minOfX_cons p0 (p1 :: ps)) as [m Hm]. rewrite <- Hps in Hm.
  exists m. split; [exact Hm|]. intros.
  unfold draw. rewrite Hci, Hm, Hps.
  unfold mbind at 1 2 3 4 5 6 7 8.
  unfold M_bind, bind, mret, M_ret, ret, addGroup, setClip, updGroup,
    getClipShape, containerAddShape.
  cbn -[mix list_to_map getFillAttrs getLineAttrs addWaterWave alter lookup Rmin].
  rewrite alter_last, lookup_last.
  cbn -[mix list_to_map getFillAttrs getLineAttrs addWaterWave alter lookup Rmin].
  change ((p0 :: p1 :: ps) !! 1%nat) with (Some p1).
  cbn -[mix list_to_map getFillAttrs getLineAttrs addWaterWave alter lookup Rmin].
  rewrite addWaterWave_run. unfold withWaves.
  cbn -[mix list_to_map getFillAttrs getLineAttrs alter lookup Rmin].
  rewrite alter_last. unfold appendChildren.
  cbn -[mix list_to_map getFillAttrs getLineAttrs alter lookup Rmin].
  rewrite <- app_assoc. reflexivity.
Qed.

Lemma specFactor_single i : specFactor 1 i = 0.
Proof. reflexivity. Qed.

Lemma specFactor_many waveCount i :
  (2 <= waveCount)%nat -> specFactor waveCount i = INR i / INR (waveCount - 1).
Proof.
  intros H. unfold specFactor.
  destruct (Nat.leb_spec waveCount 1) as [Hle|_]; [lia|].
  rewrite minus_INR by lia. reflexivity.
Qed.

Lemma specFactor_nonneg waveCount i : 0 <= specFactor waveCount i.
Proof.
  unfold specFactor. destruct (Nat.leb_spec waveCount 1) as [Hle|Hgt]; [lra|].
  apply lt_INR in Hgt. simpl in Hgt. pose proof (pos_INR i).
  apply Rmult_le_pos; [done|]. apply Rlt_le, Rinv_0_lt_compat. lra.
Qed.

Lemma specFactor_lt waveCount i j :
  (2 <= waveCount)%nat -> (i < j)%nat ->
  specFactor waveCount i < specFactor waveCount j.
Proof.
  intros Hn Hij. unfold specFactor.
  destruct (Nat.leb_spec waveCount 1) as [Hle|Hgt]; [lia|].
  apply lt_INR in Hgt, Hij. simpl in Hgt.
  apply Rmult_lt_compat_r; [|done]. apply Rinv_0_lt_compat. lra.
Qed.

Lemma specOpacity_decreasing baseOpacity waveCount i j :
  0 < baseOpacity -> (2 <= waveCount)%nat -> (i < j)%nat ->
  specOpacity baseOpacity waveCount j < specOpacity baseOpacity waveCount i.
Proof.
  intros Hb Hn Hij. pose proof (specFactor_lt waveCount i j Hn Hij).
  unfold specOpacity, lerp. nra.
Qed.

Lemma specAmplitude_decreasing boundingWidth waveCount i j :
  0 < boundingWidth -> (2 <= waveCount)%nat -> (i < j)%nat ->
  specAmplitude boundingWidth waveCount j < specAmplitude boundingWidth waveCount i.
Proof.
  intros Hb Hn Hij. pose proof (specFactor_lt waveCount i j Hn Hij).
  pose proof (specFactor_nonneg waveCount i).
  unfold specAmplitude, lerp, Rdiv.
  apply Rmult_lt_compat_l; [done|].
  apply Rinv_lt_contravar; [|lra].
  apply Rmult_lt_0_compat; lra.
Qed.

Lemma waveShapeAt_is_path x y level waveCount fill opacity bbox radius i :
  is_path (waveShapeAt x y level waveCount fill opacity bbox radius i) = true.
Proof. reflexivity. Qed.

Lemma two_points (ps : list Point) :
  (2 <= length ps)%nat -> exists p0 p1 rest, ps = p0 :: p1 :: rest.
Proof. destruct ps as [|p0 [|p1 rest]]; simpl; intros; [lia | lia | eauto]. Qed.

(** C5: on a configuration with its [customInfo] and two points, [draw]
    adds to the container the group [waves], holding exactly the three wave
    paths of index 0, 1 and 2, and then one circle, the ring; for a
    positive width and base opacity the opacity and the amplitude of the
    waves decrease strictly as the index grows. *)
Theorem draw_three_waves_one_ring (cfg : Cfg) (w : World) :
  is_Some (customInfo cfg) -> (2 <= length (points cfg))%nat ->
  exists w' clip x0 y0 level radius ringAttrs,
    draw cfg w = Ok tt w' /\
    container w' = container w ++
      [ChildGroup (length (groups w)); ChildShape (CircleShape "wrap" ringAttrs)] /\
    groups w' = groups w ++
      [{| group_name := "waves";
          group_clip := Some clip;
          group_children :=
            map (waveShapeAt x0 y0 level 3 (get (getFillAttrs cfg) "fill")
                   (get (getFillAttrs cfg) "opacity") (getBBox clip) radius)
                [0; 1; 2]%nat |}] /\
    (forall boundingWidth baseOpacity i j,
       0 < boundingWidth -> 0 < baseOpacity -> (i < j)%nat ->
       specOpacity baseOpacity 3 j < specOpacity baseOpacity 3 i /\
       specAmplitude boundingWidth 3 j < specAmplitude boundingWidth 3 i).
Proof.
  intros [ci Hci] Hlen.
  destruct (two_points _ Hlen) as (p0 & p1 & rest & Hps).
  destruct (draw_run cfg ci p0 p1 rest w Hci Hps) as (m & _ & Hrun).
  cbv zeta in Hrun. rewrite Hrun.
  eexists _, _, _, _, _, _, _. split; [reflexivity|].
  split; [reflexivity|]. split; [reflexivity|].
  intros bw bo i j Hw Ho Hij. split.
  - apply specOpacity_decreasing; [done | lia | done].
  - apply specAmplitude_decreasing; [done | lia | done].
Qed.

(** C8: the wave of index [i] that [addWaterWave] adds has the amplitude
    boundingWidth / lerp(56, 64, factor) and the opacity
    lerp(0.6, 0.3, factor) * baseOpacity, and is animated for
    lerp(5000, 3500, factor) ms, where factor is i / (waveCount - 1), and 0
    when waveCount <= 1; a single wave has the divisor 56, the opacity
    factor 0.6 and the duration 5000. *)
Theorem wave_parameters (x y level : R) (waveCount : nat) (waveAttrs : obj)
  (g : nat) (clip : Circle) (radius : R) (w : World) (gr : Group) (i : nat) :
  (i < waveCount)%nat -> groups w !! g = Some gr ->
  let bbox := getBBox clip in
  let width := maxX bbox - minX bbox in
  let height := maxY bbox - minY bbox in
  let factor := if (waveCount <=? 1)%nat then 0
                else INR i / INR (waveCount - 1) in
  let wave :=
    PathShape (waveName i)
      (getWaterWavePath radius (minY bbox + height * level) (width / 4) 0
         (width / lerp 56 64 factor) x y)
      (get waveAttrs "fill")
      (baseOpacity ← toNumber strToNum (get waveAttrs "opacity");
       Some (lerp 0.6 0.3 factor * baseOpacity)) in
  let matrix := transform [("t"%string, width / 2, 0)] in
  let cfg := {| duration := lerp 5000 3500 factor; repeat := true |} in
  (exists w' gr',
     addWaterWave x y level waveCount waveAttrs g clip radius w = Ok tt w' /\
     groups w' !! g = Some gr' /\
     group_children gr' !! (length (group_children gr) + i)%nat = Some wave /\
     (animateThrows wave matrix cfg = None ->
      In {| anim_target := wave; anim_matrix := matrix; anim_cfg := cfg |}
         (animations w'))) /\
  (waveCount = 1%nat ->
   factor = 0 /\ lerp 56 64 factor = 56 /\ lerp 0.6 0.3 factor = 0.6 /\
   lerp 5000 3500 factor = 5000).
Proof.
  intros Hi Hg bbox width height factor wave matrix cfg.
  assert (factor = specFactor waveCount i) as Hf.
  { unfold factor, specFactor.
    destruct (Nat.leb_spec waveCount 1) as [Hle|Hgt]; [done|].
    rewrite minus_INR by lia. reflexivity. }
  set (shapeAt := waveShapeAt x y level waveCount (get waveAttrs "fill")
                    (get waveAttrs "opacity") bbox radius).
  assert (wave = shapeAt i) as Hwave.
  { unfold wave, shapeAt, waveShapeAt, specAmplitude, specOpacity.
    fold bbox width height. by rewrite Hf. }
  assert (cfg = waveAnimCfg waveCount i) as Hcfg.
  { unfold cfg, waveAnimCfg, specDuration. by rewrite Hf. }
  split.
  - rewrite addWaterWave_run. fold bbox width shapeAt.
    exists (withWaves g (map shapeAt (seq 0 waveCount))
              (flat_map (acceptedAnimation width waveCount shapeAt) (seq 0 waveCount))
              (flat_map (rejectedAnimation width waveCount shapeAt) (seq 0 waveCount))
              w),
      (appendChildren (map shapeAt (seq 0 waveCount)) gr).
    split; [reflexivity|]. split; [|split].
    + simpl. by rewrite list_lookup_alter_eq, Hg.
    + simpl. rewrite lookup_app_r by lia.
      replace (length (group_children gr) + i - length (group_children gr))%nat
        with i by lia.
      rewrite list_lookup_fmap, lookup_seq_lt by done. simpl. by rewrite Hwave.
    + intros Hnone. simpl. apply in_or_app. right.
      apply in_flat_map. exists i. split; [apply in_seq; lia|].
      unfold acceptedAnimation. fold matrix.
      rewrite <- Hwave, <- Hcfg, Hnone. by left.
  - intros ->. unfold factor, lerp. simpl. repeat split; lra.
Qed.

(** C9: whatever the host answers to [animate], [addWaterWave] returns
    normally: every wave is in the group, after the children the group
    had; a wave whose animation the host refuses leaves one message on the
    console, and each wave leaves either an animation or a message.  So
    [draw] returns normally on every configuration that has its
    [customInfo] and two points. *)
Theorem animate_failure_contained (x y level : R) (waveCount : nat)
  (waveAttrs : obj) (g : nat) (clip : Circle) (radius : R) (w : World) :
  let bbox := getBBox clip in
  let width := maxX bbox - minX bbox in
  let shapeAt := waveShapeAt x y level waveCount (get waveAttrs "fill")
                   (get waveAttrs "opacity") bbox radius in
  (exists w',
     addWaterWave x y level waveCount waveAttrs g clip radius w = Ok tt w' /\
     container w' = container w /\
     (forall gr, groups w !! g = Some gr ->
        exists gr', groups w' !! g = Some gr' /\
          group_children gr' =
          group_children gr ++ map shapeAt (seq 0 waveCount)) /\
     (forall i e, (i < waveCount)%nat ->
        animateThrows (shapeAt i) (transform [("t"%string, width / 2, 0)])
          (waveAnimCfg waveCount i) = Some e ->
        In "off-screen group animate error!"%string (console w')) /\
     (length (animations w') + length (console w') =
      length (animations w) + length (console w) + waveCount)%nat) /\
  (forall cfg, is_Some (customInfo cfg) -> (2 <= length (points cfg))%nat ->
     exists w'', draw cfg w = Ok tt w'').
Proof.
  intros bbox width shapeAt. split.
  - rewrite addWaterWave_run. fold bbox width shapeAt.
    eexists. split; [reflexivity|]. split; [reflexivity|]. split; [|split].
    + intros gr Hg. exists (appendChildren (map shapeAt (seq 0 waveCount)) gr).
      simpl. by rewrite list_lookup_alter_eq, Hg.
    + intros i e Hi He. simpl. apply in_or_app. right.
      apply in_flat_map. exists i. split; [apply in_seq; lia|].
      unfold rejectedAnimation. rewrite He. by left.
    + simpl. rewrite !length_app.
      assert (forall l : list nat,
                (length (flat_map (acceptedAnimation width waveCount shapeAt) l) +
                 length (flat_map (rejectedAnimation width waveCount shapeAt) l) =
                 length l)%nat) as Hcount.
      { induction l as [|k l IH]; [done|]. simpl. rewrite !length_app.
        unfold acceptedAnimation at 1, rejectedAnimation at 1.
        destruct (animateThrows _ _ _); simpl; lia. }
      specialize (Hcount (seq 0 waveCount)). rewrite length_seq in Hcount. lia.
  - intros cfg [ci Hci] Hlen.
    destruct (two_points _ Hlen) as (p0 & p1 & rest & Hps).
    destruct (draw_run cfg ci p0 p1 rest w Hci Hps) as (m & _ & Hrun).
    cbv zeta in Hrun. rewrite Hrun. eauto.
Qed.

(** ** More on the composer *)

Lemma truthy_defined v : truthy v = true -> v <> JUndefined.
Proof. by intros H ->. Qed.

Lemma mix1_lookup_src dist (st : obj) k v :
  st !! k = Some v -> v <> JUndefined -> k <> "constructor"%string ->
  mix1 dist (Some st) !! k = Some v.
Proof.
  intros Hk Hv Hc. unfold mix1. apply lookup_union_Some_l.
  apply map_lookup_filter_Some. split; [done|]. by split.
Qed.

Lemma mix1_lookup_dist dist src k :
  (forall st v, src = Some st -> st !! k = Some v -> v = JUndefined) ->
  mix1 dist src !! k = dist !! k.
Proof.
  intros H. unfold mix1. destruct src as [st|]; [|done].
  apply lookup_union_r. apply map_lookup_filter_None.
  destruct (st !! k) as [v|] eqn:Hk; [right | by left].
  intros v' [= <-] [Hv _]. apply Hv. by eapply H.
Qed.

Lemma mix1_defined dist src :
  (forall k v, dist !! k = Some v -> v <> JUndefined) ->
  forall k v, mix1 dist src !! k = Some v -> v <> JUndefined.
Proof.
  intros Hd k v. unfold mix1. destruct src as [st|]; [|apply Hd].
  intros H. apply lookup_union_Some_raw in H. destruct H as [H | [_ H]].
  - apply map_lookup_filter_Some in H. by destruct H as [_ [Hv _]].
  - by eapply Hd.
Qed.

Lemma mix1_keeps dist src k : is_Some (dist !! k) -> is_Some (mix1 dist src !! k).
Proof.
  intros H. unfold mix1. destruct src as [st|]; [|done].
  apply lookup_union_is_Some. by right.
Qed.

Lemma minOfX_from_spec ps r :
  exists m,
    fold_left (fun r p => Some (match r with
                                | None => x p
                                | Some r => Rmin r (x p)
                                end)) ps (Some r) = Some m /\
    m <= r /\
    (forall p, In p ps -> m <= x p) /\
    (m = r \/ exists p, In p ps /\ m = x p).
Proof.
  revert r. induction ps as [|p ps IH]; intros r; simpl.
  - exists r. split; [done|]. split; [lra|]. split; [by intros|by left].
  - destruct (IH (Rmin r (x p))) as (m & Hm & Hle & Hall & Hex).
    exists m. split; [exact Hm|].
    pose proof (Rmin_l r (x p)). pose proof (Rmin_r r (x p)).
    split; [lra|]. split.
    + intros q [<- | Hq]; [lra | by apply Hall].
    + destruct Hex as [-> | (q & Hq & ->)].
      * unfold Rmin. destruct (Rle_dec r (x p)); [by left|].
        right. exists p. split; [by left | done].
      * right. exists q. split; [by right | done].
Qed.

(** X14: the reduction over the points returns the smallest abscissa of a
    point, which is the abscissa of one of them; over no point at all it
    returns its initial value, Infinity. *)
Theorem minOfX_min (ps : list Point) :
  minOfX [] = None /\
  (ps <> [] ->
   exists m, minOfX ps = Some m /\
     (forall p, In p ps -> m <= x p) /\
     (exists p, In p ps /\ m = x p)).
Proof.
  split; [reflexivity|]. intros Hne.
  destruct ps as [|p ps]; [done|]. unfold minOfX. simpl.
  destruct (minOfX_from_spec ps (x p)) as (m & Hm & Hle & Hall & Hex).
  exists m. split; [exact Hm|]. split.
  - intros q [<- | Hq]; [done | by apply Hall].
  - destruct Hex as [-> | (q & Hq & ->)].
    + exists p. split; [by left | done].
    + exists q. split; [by right | done].
Qed.

Lemma draw_no_customInfo cfg w :
  customInfo cfg = None ->
  draw cfg w = Throw (TypeError "cfg.customInfo is undefined") w.
Proof. intros H. unfold draw. rewrite H. reflexivity. Qed.

Lemma draw_no_point cfg ci w :
  customInfo cfg = Some ci -> points cfg = [] ->
  exists w', draw cfg w = Throw (TypeError "cfg.points[1] is undefined") w'.
Proof.
  intros Hci Hps. unfold draw. rewrite Hci, Hps.
  unfold mbind at 1 2 3 4 5 6 7 8.
  unfold M_bind, bind, mret, M_ret, ret, addGroup, setClip, updGroup,
    getClipShape, containerAddShape.
  cbn -[mix list_to_map getFillAttrs getLineAttrs addWaterWave alter lookup Rmin].
  rewrite alter_last, lookup_last.
  cbn -[mix list_to_map getFillAttrs getLineAttrs addWaterWave alter lookup Rmin].
  eauto.
Qed.

Lemma draw_run_single cfg ci p0 w :
  customInfo cfg = Some ci -> points cfg = [p0] ->
  let radio := match get ci "radius" with JNum r => r | _ => 0.9 end in
  let center := parsePoint {| x := 0.5; y := 0.5 |} in
  let minXPoint := parsePoint {| x := x p0; y := 0.5 |} in
  let radius := Rmin (x center - x minXPoint) (y minXPoint * radio) in
  draw cfg w =
  Throw (TypeError "cfg.points[1] is undefined")
    {| container := container w ++ [ChildGroup (length (groups w))];
       groups := groups w ++
                 [{| group_name := "waves";
                     group_clip := Some {| circle_x := x center;
                                           circle_y := y center;
                                           circle_r := radius |};
                     group_children := [] |}];
       animations := animations w;
       console := console w |}.
Proof.
  intros Hci Hps. intros.
  unfold draw. rewrite Hci, Hps.
  unfold mbind at 1 2 3 4 5 6 7 8.
  unfold M_bind, bind, mret, M_ret, ret, addGroup, setClip, updGroup,
    getClipShape, containerAddShape.
  cbn -[mix list_to_map getFillAttrs getLineAttrs addWaterWave alter lookup Rmin].
  rewrite alter_last, lookup_last.
  cbn -[mix list_to_map getFillAttrs getLineAttrs addWaterWave alter lookup Rmin].
  change ([p0] !! 1%nat) with (@None Point).
  reflexivity.
Qed.

(** X15: [draw] returns normally exactly on the configurations that have
    their [customInfo] and at least two points; on the others it throws. *)
Theorem draw_returns_iff (cfg : Cfg) (w : World) :
  (exists w', draw cfg w = Ok tt w') <->
  is_Some (customInfo cfg) /\ (2 <= length (points cfg))%nat.
Proof.
  split.
  - intros [w' Hok].
    destruct (customInfo cfg) as [ci|] eqn:Hci;
      [|by rewrite draw_no_customInfo in Hok].
    split; [by eexists|].
    destruct (points cfg) as [|p0 [|p1 ps]] eqn:Hps; simpl; [| |lia].
    + destruct (draw_no_point cfg ci w Hci Hps) as [w'' Hthrow].
      by rewrite Hthrow in Hok.
    + by rewrite (draw_run_single cfg ci p0) in Hok.
  - intros [[ci Hci] Hlen].
    destruct (two_points _ Hlen) as (p0 & p1 & rest & Hps).
    destruct (draw_run cfg ci p0 p1 rest w Hci Hps) as (m & _ & Hrun).
    cbv zeta in Hrun. rewrite Hrun. eauto.
Qed.

(** X16: on a configuration with a single point [draw] throws a TypeError
    when it reads the second point; by then the group [waves] with its
    clip has been added to the container, and it stays there, without a
    wave and without the ring. *)
Theorem draw_single_point (cfg : Cfg) (ci : obj) (p0 : Point) (w : World) :
  customInfo cfg = Some ci -> points cfg = [p0] ->
  exists msg clip w',
    draw cfg w = Throw (TypeError msg) w' /\
    container w' = container w ++ [ChildGroup (length (groups w))] /\
    groups w' = groups w ++
      [{| group_name := "waves"; group_clip := Some clip; group_children := [] |}] /\
    animations w' = animations w /\
    console w' = console w.
Proof.
  intros Hci Hps.
  pose proof (draw_run_single cfg ci p0 w Hci Hps) as Hrun. cbv zeta in Hrun.
  rewrite Hrun. eexists _, _, _. split; [reflexivity|]. by repeat split.
Qed.

(** X17: on a configuration with its [customInfo] and two points, the
    clip circle of the group and the ring have the same centre and radius:
    the centre is the image of (0.5, 0.5) and the radius the smaller of
    the distance to the leftmost point and the height of that point times
    the ratio [customInfo.radius], 0.9 when that is not a number.  The
    ring is named [wrap] and its fill is 'transparent' whatever the style
    says.  The waves are built around that centre with four times that
    radius, for the level 1 - y of the second point. *)
Theorem draw_geometry (cfg : Cfg) (ci : obj) (p0 p1 : Point) (ps : list Point)
  (w : World) :
  customInfo cfg = Some ci -> points cfg = p0 :: p1 :: ps ->
  exists w' leftmost clip waves ringAttrs,
    draw cfg w = Ok tt w' /\
    minOfX (points cfg) = Some leftmost /\
    circle_x clip = x (parsePoint {| x := 0.5; y := 0.5 |}) /\
    circle_y clip = y (parsePoint {| x := 0.5; y := 0.5 |}) /\
    circle_r clip =
      Rmin (x (parsePoint {| x := 0.5; y := 0.5 |}) -
            x (parsePoint {| x := leftmost; y := 0.5 |}))
           (y (parsePoint {| x := leftmost; y := 0.5 |}) *
            match get ci "radius" with JNum r => r | _ => 0.9 end) /\
    last (groups w') =
      Some {| group_name := "waves"; group_clip := Some clip;
              group_children := waves |} /\
    waves = map (waveShapeAt (circle_x clip) (circle_y clip) (1 - y p1) 3
                   (get (getFillAttrs cfg) "fill")
                   (get (getFillAttrs cfg) "opacity")
                   (getBBox clip) (circle_r clip * 4)) (seq 0 3) /\
    last (container w') = Some (ChildShape (CircleShape "wrap" ringAttrs)) /\
    ringAttrs !! "x"%string = Some (JNum (circle_x clip)) /\
    ringAttrs !! "y"%string = Some (JNum (circle_y clip)) /\
    ringAttrs !! "r"%string = Some (JNum (circle_r clip)) /\
    ringAttrs !! "fill"%string = Some (JStr "transparent").
Proof.
  intros Hci Hps.
  destruct (draw_run cfg ci p0 p1 ps w Hci Hps) as (m & Hm & Hrun).
  cbv zeta in Hrun. rewrite Hrun.
  eexists _, m,
    {| circle_x := x (parsePoint {| x := 0.5; y := 0.5 |});
       circle_y := y (parsePoint {| x := 0.5; y := 0.5 |});
       circle_r :=
         Rmin (x (parsePoint {| x := 0.5; y := 0.5 |}) -
               x (parsePoint {| x := m; y := 0.5 |}))
              (y (parsePoint {| x := m; y := 0.5 |}) *
               match get ci "radius" with JNum r => r | _ => 0.9 end) |}, _, _.
  split; [reflexivity|]. split; [exact Hm|].
  split; [reflexivity|]. split; [reflexivity|]. split; [reflexivity|].
  split; [apply last_snoc|]. split; [reflexivity|].
  split.
  { cbn [container]. apply last_Some.
    exists (container w ++ [ChildGroup (length (groups w))]).
    by rewrite <- app_assoc. }
  unfold mix. cbn [mix1].
  repeat split; (apply mix1_lookup_src; [reflexivity | done | done]).
Qed.

(** X18: [addWaterWave] only adds: it leaves the children of the
    container and every other group as they were, keeps the name, the clip
    and the earlier children of its own group, and keeps every earlier
    animation and console message. *)
Theorem addWaterWave_frame (x y level : R) (waveCount : nat) (waveAttrs : obj)
  (g : nat) (clip : Circle) (radius : R) (w : World) :
  exists w',
    addWaterWave x y level waveCount waveAttrs g clip radius w = Ok tt w' /\
    container w' = container w /\
    length (groups w') = length (groups w) /\
    (forall g', g' <> g -> groups w' !! g' = groups w !! g') /\
    (forall gr, groups w !! g = Some gr ->
       exists gr', groups w' !! g = Some gr' /\
         group_name gr' = group_name gr /\
         group_clip gr' = group_clip gr /\
         group_children gr `prefix_of` group_children gr') /\
    animations w `prefix_of` animations w' /\
    console w `prefix_of` console w'.
Proof.
  rewrite addWaterWave_run. cbv zeta.
  eexists. split; [reflexivity|]. simpl.
  split; [reflexivity|]. split; [apply length_alter|].
  split; [intros g' Hg'; by apply list_lookup_alter_ne|].
  split.
  - intros gr Hgr. eexists. rewrite list_lookup_alter_eq, Hgr.
    split; [reflexivity|]. simpl. repeat split. by eexists.
  - split; by eexists.
Qed.

Lemma waveName_inj i j : waveName i = waveName j -> i = j.
Proof.
  unfold waveName. intros H. simpl in H. injection H as H.
  by apply (inj pretty).
Qed.

(** X19: the waves that one call of [addWaterWave] adds to its group have
    pairwise distinct names. *)
Theorem wave_names_distinct (x y level : R) (waveCount : nat) (waveAttrs : obj)
  (g : nat) (clip : Circle) (radius : R) (w : World) (gr : Group) :
  groups w !! g = Some gr ->
  exists w' gr' added,
    addWaterWave x y level waveCount waveAttrs g clip radius w = Ok tt w' /\
    groups w' !! g = Some gr' /\
    group_children gr' = group_children gr ++ added /\
    length added = waveCount /\
    NoDup (map shapeName added).
Proof.
  intros Hg. rewrite addWaterWave_run. cbv zeta.
  eexists _, _, _. split; [reflexivity|]. simpl.
  split; [by rewrite list_lookup_alter_eq, Hg|].
  split; [reflexivity|].
  split; [by rewrite length_map, length_seq|].
  rewrite map_map.
  apply (NoDup_fmap_2_strong _ (seq 0 waveCount)); [|apply NoDup_seq].
  intros i j _ _ H. simpl in H. by apply waveName_inj.
Qed.

Lemma factor_range waveCount i :
  (i < waveCount)%nat ->
  0 <= (if (waveCount <=? 1)%nat then 0 else INR i / (INR waveCount - 1)) <= 1.
Proof.
  intros Hi. destruct (Nat.leb_spec waveCount 1) as [Hle | Hgt]; [lra|].
  assert (INR i <= INR waveCount - 1) as Hle.
  { replace (INR waveCount - 1) with (INR (waveCount - 1))
      by (rewrite minus_INR by lia; simpl; lra).
    apply le_INR. lia. }
  pose proof (pos_INR i) as Hpos.
  assert (0 < INR waveCount - 1) as Hd
    by (apply lt_INR in Hgt; simpl in Hgt; lra).
  split.
  - apply Rmult_le_pos; [done|]. apply Rlt_le, Rinv_0_lt_compat. done.
  - apply Rmult_le_reg_r with (INR waveCount - 1); [done|].
    unfold Rdiv. rewrite Rmult_assoc, Rinv_l by lra. lra.
Qed.

(** X20: for an index below the number of waves the factor lies between
    0 and 1, so the divisor of the amplitude lies between 56 and 64, the
    factor of the opacity between 0.3 and 0.6 and the duration between
    3500 and 5000; the first wave has the factor 0 and, of two waves or
    more, the last one has the factor 1. *)
Theorem wave_factor_range (waveCount i : nat) :
  (i < waveCount)%nat ->
  let factor := if (waveCount <=? 1)%nat then 0
                else INR i / (INR waveCount - 1) in
  0 <= factor <= 1 /\
  56 <= lerp 56 64 factor <= 64 /\
  0.3 <= lerp 0.6 0.3 factor <= 0.6 /\
  3500 <= lerp 5000 (0.7 * 5000) factor <= 5000 /\
  (i = 0%nat -> factor = 0) /\
  ((2 <= waveCount)%nat -> i = (waveCount - 1)%nat -> factor = 1).
Proof.
  intros Hi factor. pose proof (factor_range waveCount i Hi) as Hf.
  fold factor in Hf. unfold lerp.
  split; [exact Hf|]. split; [lra|]. split; [lra|]. split; [lra|]. split.
  - intros ->. unfold factor. destruct (waveCount <=? 1)%nat; [done|].
    simpl. unfold Rdiv. lra.
  - intros Hn ->. unfold factor.
    destruct (Nat.leb_spec waveCount 1) as [Hle | Hgt]; [lia|].
    rewrite minus_INR by lia. simpl.
    apply lt_INR in Hgt. simpl in Hgt. field. lra.
Qed.

(** X21: every animation that [addWaterWave] starts is a repeating one on
    one of the wave paths it has just added, with the translation by half
    the width of the bounding box and a duration between 3500 and 5000. *)
Theorem addWaterWave_animations (x y level : R) (waveCount : nat)
  (waveAttrs : obj) (g : nat) (clip : Circle) (radius : R) (w : World) :
  let bbox := getBBox clip in
  let width := maxX bbox - minX bbox in
  exists w' started,
    addWaterWave x y level waveCount waveAttrs g clip radius w = Ok tt w' /\
    animations w' = animations w ++ started /\
    (length started <= waveCount)%nat /\
    forall a, In a started ->
      repeat (anim_cfg a) = true /\
      anim_matrix a = transform [("t"%string, width / 2, 0)] /\
      3500 <= duration (anim_cfg a) <= 5000 /\
      exists i, (i < waveCount)%nat /\
        anim_target a =
        waveShapeAt x y level waveCount (get waveAttrs "fill")
          (get waveAttrs "opacity") bbox radius i.
Proof.
  intros bbox width. rewrite addWaterWave_run. fold bbox width.
  set (shapeAt := waveShapeAt x y level waveCount (get waveAttrs "fill")
                    (get waveAttrs "opacity") bbox radius).
  eexists _, _. split; [reflexivity|]. split; [reflexivity|]. split.
  - assert (forall l : list nat,
              (length (flat_map (acceptedAnimation width waveCount shapeAt) l)
               <= length l)%nat) as Hlen.
    { induction l as [|k l IH]; [done|]. simpl. rewrite length_app.
      unfold acceptedAnimation at 1.
      destruct (animateThrows _ _ _); simpl; lia. }
    specialize (Hlen (seq 0 waveCount)). by rewrite length_seq in Hlen.
  - intros a Ha. apply in_flat_map in Ha. destruct Ha as (i & Hi & Ha).
    apply in_seq in Hi. unfold acceptedAnimation in Ha.
    destruct (animateThrows _ _ _); [done|].
    destruct Ha as [<- | []]. simpl.
    split; [done|]. split; [done|]. split.
    + pose proof (factor_range waveCount i ltac:(lia)) as Hf.
      unfold specDuration, specFactor, lerp. lra.
    + exists i. split; [lia | done].
Qed.

(** X22: on a host that refuses every animation [addWaterWave] starts
    none and leaves one message per wave on the console; on a host that
    accepts every animation it starts one per wave and leaves no
    message. *)
Theorem addWaterWave_all_or_none (x y level : R) (waveCount : nat)
  (waveAttrs : obj) (g : nat) (clip : Circle) (radius : R) (w : World) :
  exists w',
    addWaterWave x y level waveCount waveAttrs g clip radius w = Ok tt w' /\
    ((forall s m c, is_Some (animateThrows s m c)) ->
     animations w' = animations w /\
     console w' =
       console w ++ replicate waveCount "off-screen group animate error!"%string) /\
    ((forall s m c, animateThrows s m c = None) ->
     console w' = console w /\
     length (animations w') = (length (animations w) + waveCount)%nat).
Proof.
  rewrite addWaterWave_run. cbv zeta.
  set (width := maxX (getBBox clip) - minX (getBBox clip)).
  set (shapeAt := waveShapeAt x y level waveCount (get waveAttrs "fill")
                    (get waveAttrs "opacity") (getBBox clip) radius).
  eexists. split; [reflexivity|]. simpl. split.
  - intros Hall.
    assert (forall l : list nat,
              flat_map (acceptedAnimation width waveCount shapeAt) l = [] /\
              flat_map (rejectedAnimation width waveCount shapeAt) l =
              replicate (length l) "off-screen group animate error!"%string)
      as Hl.
    { induction l as [|k l [IH1 IH2]]; [done|]. simpl.
      rewrite IH1, IH2. unfold acceptedAnimation, rejectedAnimation.
      destruct (Hall (shapeAt k) (transform [("t"%string, width / 2, 0)])
                  (waveAnimCfg waveCount k)) as [e ->]. done. }
    destruct (Hl (seq 0 waveCount)) as [-> ->].
    by rewrite app_nil_r, length_seq.
  - intros Hnone.
    assert (forall l : list nat,
              flat_map (rejectedAnimation width waveCount shapeAt) l = [] /\
              length (flat_map (acceptedAnimation width waveCount shapeAt) l) =
              length l) as Hl.
    { induction l as [|k l [IH1 IH2]]; [done|]. simpl.
      rewrite IH1, length_app, IH2. unfold acceptedAnimation, rejectedAnimation.
      rewrite Hnone. done. }
    destruct (Hl (seq 0 waveCount)) as [-> Hlen].
    by rewrite app_nil_r, length_app, Hlen, length_seq.
Qed.

End Host.

Arguments Ok {Matrix A} a w.
Arguments Throw {Matrix A} e w.

End Gauge.

(** ** The phase loops and the wave path *)

Section WaveFacts.
Import Wave.
Local Open Scope R_scope.

Lemma ltb_true a b : ltb a b = true <-> a < b.
Proof. unfold ltb. destruct (Rlt_dec a b); split; intros; try done; discriminate. Qed.

Lemma gtb_true a b : gtb a b = true <-> a > b.
Proof. unfold gtb. destruct (Rgt_dec a b); split; intros; try done; discriminate. Qed.

Lemma ltb_false a b : ltb a b = false <-> b <= a.
Proof.
  unfold ltb. destruct (Rlt_dec a b); split; intros; try done; try discriminate; lra.
Qed.

Lemma gtb_false a b : gtb a b = false <-> a <= b.
Proof.
  unfold gtb. destruct (Rgt_dec a b); split; intros; try done; try discriminate; lra.
Qed.

(** The unfolding equations of the two loops. *)
Lemma phase_up_lt p : p < - PI * 2 -> phase_up p = phase_up (p + PI * 2).
Proof.
  intros H. rewrite phase_up_equation_1. simpl.
  destruct (Rlt_dec p (- PI * 2)); [reflexivity | contradiction].
Qed.

Lemma phase_up_ge p : - PI * 2 <= p -> phase_up p = p.
Proof.
  intros H. rewrite phase_up_equation_1. simpl.
  destruct (Rlt_dec p (- PI * 2)); [lra | reflexivity].
Qed.


Lemma phase_down_le p : p <= 0 -> phase_down p = p.
Proof.
  intros H. rewrite phase_down_equation_1. simpl.
  destruct (Rgt_dec p 0); [lra | reflexivity].
Qed.

(** Each function is the result of a terminating run of its loop. *)
Lemma phase_up_run p :
  while_run (fun q => ltb q (- PI * 2)) (fun q => q + PI * 2) p (phase_up p).
Proof.
  funelim (phase_up p).
  - apply while_iter; [by apply ltb_true | assumption].
  - apply while_exit. apply ltb_false. lra.
Qed.

Lemma phase_down_run p :
  while_run (fun q => gtb q 0) (fun q => q - PI * 2) p (phase_down p).
Proof.
  funelim (phase_down p).
  - apply while_iter; [by apply gtb_true | assumption].
  - apply while_exit. apply gtb_false. lra.
Qed.

Lemma while_run_fuel {S : Type} (cond : S -> bool) (body : S -> S) s s' :
  while_run cond body s s' <-> exists n, while_fuel cond body n s = Some s'.
Proof.
  split.
  - induction 1 as [s Hc | s s' Hc _ [n IH]].
    + exists 1%nat. simpl. by rewrite Hc.
    + exists (Datatypes.S n). simpl. by rewrite Hc.
  - intros [n Hn]. revert s Hn. induction n as [|n IH]; intros s; simpl.
    + discriminate.
    + destruct (cond s) eqn:Hc.
      * intros H. apply while_iter; auto.
      * intros [= <-]. by apply while_exit.
Qed.

Lemma while_run_det {S : Type} (cond : S -> bool) (body : S -> S) s s1 s2 :
  while_run cond body s s1 -> while_run cond body s s2 -> s1 = s2.
Proof.
  induction 1 as [s Hc | s s1 Hc _ IH]; inversion 1; subst; try congruence.
  by apply IH.
Qed.

(** Where each loop leaves the phase. *)
Lemma phase_up_range p : p < - PI * 2 -> - PI * 2 <= phase_up p < 0.
Proof.
  pose proof PI_RGT_0 as Hpi.
  funelim (phase_up p); intros Hp; [|lra].
  destruct (Rlt_dec (p + PI * 2) (- PI * 2)) as [Hlt|Hge].
  - auto.
  - rewrite phase_up_ge by lra. lra.
Qed.

Lemma phase_down_range p : p > 0 -> - PI * 2 < phase_down p <= 0.
Proof.
  pose proof PI_RGT_0 as Hpi.
  funelim (phase_down p); intros Hp; [|lra].
  destruct (Rgt_dec (p - PI * 2) 0) as [Hgt|Hle].
  - auto.
  - rewrite phase_down_le by lra. lra.
Qed.

Lemma normalizePhase_range p : - (2 * PI) <= normalizePhase p <= 0.
Proof.
  pose proof PI_RGT_0 as Hpi. unfold normalizePhase.
  destruct (Rlt_dec p (- PI * 2)) as [Hlt|Hge].
  - pose proof (phase_up_range p Hlt). rewrite phase_down_le; lra.
  - rewrite (phase_up_ge p) by lra.
    destruct (Rgt_dec p 0) as [Hgt|Hle].
    + pose proof (phase_down_range p Hgt). lra.
    + rewrite phase_down_le; lra.
Qed.




Lemma normalizePhase_0 : normalizePhase 0 = 0.
Proof.
  pose proof PI_RGT_0 as Hpi. unfold normalizePhase.
  rewrite phase_up_ge by lra. apply phase_down_le. lra.
Qed.


(** The [for] loop, in closed form. *)
Lemma positions_end_x x stage waveLength amplitude :
  fst (snd (getWaterWavePositions x stage waveLength amplitude)) = x + waveLength / 4.
Proof. destruct stage as [|[|[|?]]]; reflexivity. Qed.

Lemma curveCommand_C waveLength amplitude left waterLevel c :
  exists x1 y1 x2 y2 yEnd,
    curveCommand waveLength amplitude left waterLevel c =
    CmdC x1 y1 x2 y2 (INR c * waveLength / 4 + waveLength / 4 + left) yEnd.
Proof.
  unfold curveCommand.
  pose proof (positions_end_x (INR c * waveLength / 4) (c mod 4) waveLength amplitude) as H.
  destruct (getWaterWavePositions _ _ _ _) as [[p0 p1] p2]. simpl in H.
  rewrite H. eauto 6.
Qed.

Lemma curveCommand_is_C waveLength amplitude left waterLevel c :
  is_C (curveCommand waveLength amplitude left waterLevel c) = true.
Proof.
  destruct (curveCommand_C waveLength amplitude left waterLevel c)
    as (? & ? & ? & ? & ? & ->). reflexivity.
Qed.

Lemma waveStep_fold_path curves waveLength amplitude left waterLevel cs st :
  fst (fold_left (waveStep curves waveLength amplitude left waterLevel) cs st) =
  fst st ++ map (curveCommand waveLength amplitude left waterLevel) cs.
Proof.
  revert st. induction cs as [|c cs IH]; intros st; simpl.
  - by rewrite app_nil_r.
  - rewrite IH. simpl. by rewrite <- app_assoc.
Qed.

Lemma waveLoop_path curves waveLength amplitude left waterLevel :
  fst (waveLoop curves waveLength amplitude left waterLevel) =
  CmdM left waterLevel ::
    map (curveCommand waveLength amplitude left waterLevel) (seq 0 (Z.to_nat curves)).
Proof. unfold waveLoop. by rewrite waveStep_fold_path. Qed.


Lemma getWaterWavePath_eq radius waterLevel waveLength phase amplitude cx cy :
  let curves := curvesOf radius waveLength in
  let left := leftOf radius waveLength phase cx in
  getWaterWavePath radius waterLevel waveLength phase amplitude cx cy =
  CmdM left waterLevel ::
    map (curveCommand waveLength amplitude left waterLevel)
        (seq 0 (Z.to_nat curves)) ++
    [CmdL (snd (waveLoop curves waveLength amplitude left waterLevel) + left)
          (cy + radius);
     CmdL left (cy + radius);
     CmdZ].
Proof.
  intros curves left. unfold getWaterWavePath. fold curves left.
  pose proof (waveLoop_path curves waveLength amplitude left waterLevel) as H.
  destruct (waveLoop curves waveLength amplitude left waterLevel) as [path wr].
  simpl in *. by rewrite H.
Qed.

Lemma curvesOf_pos radius waveLength :
  0 < radius -> 0 < waveLength -> (0 < Zceil (2 * radius / waveLength * 4))%Z.
Proof.
  intros Hr Hw.
  assert (0 < 2 * radius / waveLength * 4) as Hpos.
  { apply Rmult_lt_0_compat; [|lra]. apply Rdiv_lt_0_compat; lra. }
  pose proof (Zceil_bound (2 * radius / waveLength * 4)) as [_ Hb].
  apply lt_IZR. lra.
Qed.

(** C3: the last of the three points of a quarter segment lies a quarter of
    a wave length to the right of [x], and the heights follow the stage:
    stage 0 rises amplitude/2, amplitude, amplitude; stage 1 falls
    amplitude, amplitude/2, 0; stage 2 falls -amplitude/2, -amplitude,
    -amplitude; stage 3 rises -amplitude, -amplitude/2, 0; with amplitude 0
    every height is 0. *)
Theorem getWaterWavePositions_pattern (x waveLength amplitude : R) :
  0 < waveLength -> 0 <= amplitude ->
  (forall stage,
     endXOf (getWaterWavePositions x stage waveLength amplitude) = x + waveLength / 4) /\
  (ysOf (getWaterWavePositions x 0 waveLength amplitude) =
     (amplitude / 2, amplitude, amplitude) /\
   amplitude / 2 <= amplitude) /\
  (ysOf (getWaterWavePositions x 1 waveLength amplitude) =
     (amplitude, amplitude / 2, 0) /\
   0 <= amplitude / 2 <= amplitude) /\
  (ysOf (getWaterWavePositions x 2 waveLength amplitude) =
     (- amplitude / 2, - amplitude, - amplitude) /\
   - amplitude <= - amplitude / 2) /\
  (ysOf (getWaterWavePositions x 3 waveLength amplitude) =
     (- amplitude, - amplitude / 2, 0) /\
   - amplitude <= - amplitude / 2 <= 0) /\
  (amplitude = 0 ->
   forall stage, ysOf (getWaterWavePositions x stage waveLength amplitude) = (0, 0, 0)).
Proof.
  intros Hw Ha. repeat split; try reflexivity; try lra.
  - intros stage. apply positions_end_x.
  - intros -> stage.
    destruct stage as [|[|[|?]]]; unfold ysOf; simpl; repeat f_equal; lra.
Qed.

Lemma getWaterWavePositions_pattern_witness :
  0 < 4 /\ 0 <= 2 /\
  endXOf (getWaterWavePositions 1 3 4 2) = 1 + 4 / 4 /\
  ysOf (getWaterWavePositions 1 0 4 2) = (2 / 2, 2, 2).
Proof.
  assert (0 < 4) as Hw by lra.
  assert (0 <= 2) as Ha by lra.
  destruct (getWaterWavePositions_pattern 1 4 2 Hw Ha) as (Hx & (H0 & _) & _).
  split; [exact Hw|]. split; [exact Ha|]. split; [apply Hx | exact H0].
Defined.

(** A gauge of radius 1 with waves of length 8 has two curves, hence a
    path of six commands. *)
Example curvesOf_1_8 : curvesOf 1 8 = 2%Z.
Proof.
  unfold curvesOf. rewrite (Zceil_eq 1); [reflexivity|]. simpl. lra.
Qed.

Example getWaterWavePath_1_8 :
  map is_C (getWaterWavePath 1 0 8 0 0 0 0) = [false; true; true; false; false; false].
Proof.
  rewrite getWaterWavePath_eq, curvesOf_1_8.
  change (seq 0 (Z.to_nat 2)) with [0; 1]%nat. cbn [map app].
  by rewrite !curveCommand_is_C.
Qed.

(** C1: for a positive radius and wave length the path is a MoveTo, then
    exactly ceil((2*radius/waveLength)*4)*2 CubicBezierTo commands, then the
    two closing LineTo commands and the ClosePath. *)
Theorem getWaterWavePath_shape (radius waterLevel waveLength phase amplitude cx cy : R) :
  0 < radius -> 0 < waveLength -> 0 <= amplitude ->
  exists m cs l1 l2,
    getWaterWavePath radius waterLevel waveLength phase amplitude cx cy =
      m :: cs ++ [l1; l2; CmdZ] /\
    is_M m = true /\
    forallb is_C cs = true /\
    is_L l1 = true /\ is_L l2 = true /\
    Z.of_nat (length cs) = (Zceil ((2 * radius / waveLength) * 4) * 2)%Z.
Proof.
  intros Hr Hw Ha.
  pose proof (curvesOf_pos radius waveLength Hr Hw) as Hc.
  rewrite getWaterWavePath_eq.
  eexists _, _, _, _. split; [reflexivity|].
  repeat split.
  - apply forallb_forall. intros c Hin. apply in_map_iff in Hin.
    destruct Hin as (i & <- & _). apply curveCommand_is_C.
  - rewrite length_map, length_seq. unfold curvesOf. lia.
Qed.

Lemma getWaterWavePath_shape_witness :
  0 < 1 /\ 0 < 4 /\ 0 <= 1 /\
  exists m cs l1 l2,
    getWaterWavePath 1 0 4 0 1 0 0 = m :: cs ++ [l1; l2; CmdZ] /\
    is_M m = true /\
    forallb is_C cs = true /\
    is_L l1 = true /\ is_L l2 = true /\
    Z.of_nat (length cs) = (Zceil ((2 * 1 / 4) * 4) * 2)%Z.
Proof.
  assert (0 < 1) as Hr by lra.
  assert (0 < 4) as Hw by lra.
  assert (0 <= 1) as Ha by lra.
  split; [exact Hr|]. split; [exact Hw|]. split; [exact Ha|].
  exact (getWaterWavePath_shape 1 0 4 0 1 0 0 Hr Hw Ha).
Defined.






End WaveFacts.

(** ** The style resolvers *)

Section StyleFacts.
Import Style.
Local Open Scope R_scope.

Lemma spread_lookup_style base (st : obj) k v :
  st !! k = Some v -> spread base (Some st) !! k = Some v.
Proof. intros H. unfold spread. by apply lookup_union_Some_l. Qed.

(** The first example of the specification. *)
Example getFillAttrs_red :
  getFillAttrs {| style := Some ∅; color := JStr "#ff0000"; opacity := JUndefined;
                  customInfo := None; points := [] |} =
  list_to_map [("opacity"%string, JNum 1); ("fill"%string, JStr "#ff0000")].
Proof. reflexivity. Qed.

(** C6, as the code has it: the attributes start from [{opacity: 1}] with
    the style merged over it; the color becomes the fill exactly when the
    color is truthy and the merged fill is absent or falsy, and nothing
    else changes; a truthy fill of the style is kept. *)
Theorem getFillAttrs_precedence (cfg : Cfg) :
  let merged := spread {[ "opacity"%string := JNum 1 ]} (style cfg) in
  (forall st k v, style cfg = Some st -> st !! k = Some v -> merged !! k = Some v) /\
  (forall k, (forall st, style cfg = Some st -> st !! k = None) ->
     merged !! k = ({[ "opacity"%string := JNum 1 ]} : obj) !! k) /\
  (forall k, k <> "fill"%string -> getFillAttrs cfg !! k = merged !! k) /\
  (truthy (color cfg) = true -> truthy (get merged "fill") = false ->
     getFillAttrs cfg !! "fill"%string = Some (color cfg)) /\
  (truthy (color cfg) = false \/ truthy (get merged "fill") = true ->
     getFillAttrs cfg = merged) /\
  (forall st v, style cfg = Some st -> st !! "fill"%string = Some v ->
     truthy v = true -> getFillAttrs cfg !! "fill"%string = Some v).
Proof.
  intros merged. repeat apply conj.
  - intros st k v Hst Hk. unfold merged. rewrite Hst. by apply spread_lookup_style.
  - intros k Hk. unfold merged, spread. destruct (style cfg) as [st|]; [|done].
    apply lookup_union_r. by apply Hk.
  - intros k Hk. unfold getFillAttrs. fold merged.
    destruct (truthy (color cfg) && negb (truthy (get merged "fill"))); [|done].
    by rewrite lookup_insert_ne.
  - intros Hc Hf. unfold getFillAttrs. fold merged. rewrite Hc, Hf. simpl.
    apply lookup_insert_eq.
  - intros H. unfold getFillAttrs. fold merged.
    destruct H as [-> | ->]; [done|]. by rewrite andb_false_r.
  - intros st v Hst Hk Hv. unfold getFillAttrs. fold merged.
    assert (merged !! "fill"%string = Some v) as Hm
      by (unfold merged; rewrite Hst; by apply spread_lookup_style).
    unfold get. rewrite Hm. simpl. rewrite Hv, andb_false_r. exact Hm.
Qed.

Lemma getFillAttrs_precedence_witness :
  truthy (JStr "#00f") = true /\
  getFillAttrs {| style := Some {[ "fill"%string := JStr "#00f" ]};
                  color := JStr "#f00"; opacity := JUndefined;
                  customInfo := None; points := [] |} !! "fill"%string =
  Some (JStr "#00f").
Proof.
  split; [reflexivity|].
  pose proof (getFillAttrs_precedence
                {| style := Some {[ "fill"%string := JStr "#00f" ]};
                   color := JStr "#f00"; opacity := JUndefined;
                   customInfo := None; points := [] |}) as H.
  destruct H as (_ & _ & _ & _ & _ & H).
  apply (H {[ "fill"%string := JStr "#00f" ]}); reflexivity.
Defined.

(** C6, as stated, fails when the style sets a falsy fill: the empty
    string set by the style is replaced by the color. *)
Lemma getFillAttrs_counterexample :
  let st : obj := {[ "fill"%string := JStr "" ]} in
  let cfg := {| style := Some st; color := JStr "#f00"; opacity := JUndefined;
                customInfo := None; points := [] |} in
  st !! "fill"%string = Some (JStr "") /\
  getFillAttrs cfg !! "fill"%string = Some (JStr "#f00") /\
  getFillAttrs cfg !! "fill"%string <> Some (JStr "").
Proof. repeat split; discriminate. Qed.

(** C7: with an empty style, the color '#ff0000' and the opacity 0.5 the
    ring has exactly the six attributes of the specification; and a numeric
    opacity is always stored in both [opacity] and [strokeOpacity]. *)
Theorem getLineAttrs_opacity :
  (forall ci pts,
     getLineAttrs {| style := Some ∅; color := JStr "#ff0000"; opacity := JNum 0.5;
                     customInfo := ci; points := pts |} =
     list_to_map [("fill"%string, JStr "#fff");
                  ("fillOpacity"%string, JNum 0);
                  ("lineWidth"%string, JNum 2);
                  ("stroke"%string, JStr "#ff0000");
                  ("opacity"%string, JNum 0.5);
                  ("strokeOpacity"%string, JNum 0.5)]) /\
  (forall cfg r, opacity cfg = JNum r ->
     getLineAttrs cfg !! "opacity"%string = Some (JNum r) /\
     getLineAttrs cfg !! "strokeOpacity"%string = Some (JNum r)).
Proof.
  split.
  - intros ci pts. reflexivity.
  - intros cfg r Hr. unfold getLineAttrs. rewrite Hr. simpl. split.
    + apply lookup_insert_eq.
    + rewrite lookup_insert_ne by done. apply lookup_insert_eq.
Qed.

Lemma getLineAttrs_opacity_witness :
  opacity {| style := None; color := JNull; opacity := JNum 1;
             customInfo := None; points := [] |} = JNum 1 /\
  getLineAttrs {| style := None; color := JNull; opacity := JNum 1;
                  customInfo := None; points := [] |} !! "strokeOpacity"%string =
  Some (JNum 1).
Proof.
  split; [reflexivity|].
  apply (proj2 getLineAttrs_opacity
           {| style := None; color := JNull; opacity := JNum 1;
              customInfo := None; points := [] |} 1).
  reflexivity.
Defined.

End StyleFacts.

(** ** The composer on a canvas-less host *)

Section GaugeWitnesses.
Import Wave Style Gauge.
Local Open Scope R_scope.

Lemma draw_three_waves_one_ring_witness :
  is_Some (customInfo sampleCfg) /\
  (2 <= length (points sampleCfg))%nat /\
  exists w',
    draw (fun _ => tt) (fun p => p) circleBBox
      (fun cy => {| x := 0; y := cy |}) (fun _ => None)
      offscreenAnimate sampleCfg (@emptyWorld unit) = Ok tt w' /\
    length (container w') = 2%nat /\
    (group_children <$> groups w' !! 0%nat) ≫= (fun cs => Some (length cs)) = Some 3%nat.
Proof.
  assert (is_Some (customInfo sampleCfg)) as Hci by (by eexists).
  assert (2 <= length (points sampleCfg))%nat as Hps by (simpl; lia).
  split; [exact Hci|]. split; [exact Hps|].
  destruct (draw_three_waves_one_ring (fun _ => tt) (fun p => p) circleBBox
      (fun cy => {| x := 0; y := cy |})
              (fun _ => None) offscreenAnimate sampleCfg (@emptyWorld unit) Hci Hps)
    as (w' & clip & x0 & y0 & level & radius & ringAttrs & Hrun & Hc & Hg & _).
  exists w'. split; [exact Hrun|]. rewrite Hc, Hg. split; reflexivity.
Defined.

Lemma wave_parameters_witness :
  (0 < 1)%nat /\
  groups (@oneGroupWorld unit) !! 0%nat =
    Some {| group_name := "waves"; group_clip := None; group_children := [] |} /\
  exists w',
    addWaterWave (fun _ => tt) circleBBox (fun _ => None) offscreenAnimate
      0.5 0.5 0.3 1 (getFillAttrs sampleCfg) 0
      {| circle_x := 0.5; circle_y := 0.5; circle_r := 0.45 |} 1.8
      (@oneGroupWorld unit) = Ok tt w'.
Proof.
  assert (0 < 1)%nat as Hi by lia.
  assert (groups (@oneGroupWorld unit) !! 0%nat =
          Some {| group_name := "waves"; group_clip := None; group_children := [] |})
    as Hg by reflexivity.
  split; [exact Hi|]. split; [exact Hg|].
  destruct (wave_parameters (fun _ => tt) circleBBox (fun _ => None)
              offscreenAnimate 0.5 0.5 0.3 1 (getFillAttrs sampleCfg) 0
              {| circle_x := 0.5; circle_y := 0.5; circle_r := 0.45 |} 1.8
              (@oneGroupWorld unit) _ 0 Hi Hg)
    as ((w' & gr' & Hrun & _) & _).
  exists w'. exact Hrun.
Defined.

Lemma animate_failure_contained_witness :
  is_Some (customInfo sampleCfg) /\
  (2 <= length (points sampleCfg))%nat /\
  exists w',
    draw (fun _ => tt) (fun p => p) circleBBox
      (fun cy => {| x := 0; y := cy |}) (fun _ => None)
      offscreenAnimate sampleCfg (@emptyWorld unit) = Ok tt w'.
Proof.
  assert (is_Some (customInfo sampleCfg)) as Hci by (by eexists).
  assert (2 <= length (points sampleCfg))%nat as Hps by (simpl; lia).
  split; [exact Hci|]. split; [exact Hps|].
  exact (proj2 (animate_failure_contained (fun _ => tt) (fun p => p) circleBBox
      (fun cy => {| x := 0; y := cy |})
                  (fun _ => None) offscreenAnimate 0.5 0.5 0.3 3
                  (getFillAttrs sampleCfg) 0
                  {| circle_x := 0.5; circle_y := 0.5; circle_r := 0.45 |} 1.8
                  (@emptyWorld unit)) sampleCfg Hci Hps).
Defined.

End GaugeWitnesses.

(** ** More on the wave path *)

Section WaveMore.
Import Wave.
Local Open Scope R_scope.

Lemma PI_gt_2 : 2 < PI.
Proof. pose proof PI2_1. lra. Qed.

(** X2: the curve of index c ends at c * waveLength / 4 + waveLength / 4
    + left, and its two control points lie between c * waveLength / 4 +
    left and that end, in this order: no curve folds back. *)
Theorem curveCommand_tiles (waveLength amplitude left waterLevel : R) (c : nat) :
  0 <= waveLength ->
  exists x1 y1 x2 y2 y,
    curveCommand waveLength amplitude left waterLevel c =
      CmdC x1 y1 x2 y2 (INR c * waveLength / 4 + waveLength / 4 + left) y /\
    INR c * waveLength / 4 + left <= x1 /\
    x1 <= x2 /\
    x2 <= INR c * waveLength / 4 + waveLength / 4 + left.
Proof.
  intros Hw. pose proof PI_gt_2 as Hpi.
  set (k := waveLength / PI).
  assert (0 <= k) as Hk.
  { unfold k, Rdiv. apply Rmult_le_pos; [lra|].
    apply Rlt_le, Rinv_0_lt_compat. lra. }
  assert (waveLength = k * PI) as Hwl by (unfold k; field; lra).
  assert (1 / 2 * waveLength / PI = k / 2) as H2 by (unfold k; field; lra).
  unfold curveCommand.
  destruct (c mod 4)%nat as [|[|[|?]]]; simpl; rewrite H2;
    (eexists _, _, _, _, _; split; [reflexivity|]);
    rewrite Hwl; repeat split; nra.
Qed.

Lemma curveCommand_tiles_witness :
  0 <= 4 /\
  exists x1 y1 x2 y2 y,
    curveCommand 4 1 0 0 1 = CmdC x1 y1 x2 y2 (INR 1 * 4 / 4 + 4 / 4 + 0) y /\
    INR 1 * 4 / 4 + 0 <= x1 /\ x1 <= x2 /\ x2 <= INR 1 * 4 / 4 + 4 / 4 + 0.
Proof.
  assert (0 <= 4) as H by lra.
  split; [exact H|]. exact (curveCommand_tiles 4 1 0 0 1 H).
Defined.

Lemma curveCommand_heights waveLength amplitude left waterLevel c :
  0 <= amplitude ->
  Forall (fun y => waterLevel - amplitude <= y <= waterLevel + amplitude)
         (cmdYs (curveCommand waveLength amplitude left waterLevel c)).
Proof.
  intros Ha. unfold curveCommand.
  destruct (c mod 4)%nat as [|[|[|?]]]; simpl;
    repeat (apply Forall_cons_2; [lra|]); apply Forall_nil_2.
Qed.

(** X3: for an amplitude that is not negative, every point of every
    command the wave is drawn with (the MoveTo and the curves) lies within
    one amplitude of the water level; with amplitude 0 the wave is flat. *)
Theorem wave_heights_bounded
  (radius waterLevel waveLength phase amplitude cx cy : R) (cmd : PathCommand) :
  0 <= amplitude ->
  In cmd (getWaterWavePath radius waterLevel waveLength phase amplitude cx cy) ->
  is_M cmd || is_C cmd = true ->
  Forall (fun y => waterLevel - amplitude <= y <= waterLevel + amplitude)
         (cmdYs cmd) /\
  (amplitude = 0 -> Forall (fun y => y = waterLevel) (cmdYs cmd)).
Proof.
  intros Ha Hin Hkind.
  assert (Forall (fun y => waterLevel - amplitude <= y <= waterLevel + amplitude)
                 (cmdYs cmd)) as Hb.
  { rewrite getWaterWavePath_eq in Hin. destruct Hin as [<- | Hin].
    - simpl. apply Forall_cons_2; [lra|]. apply Forall_nil_2.
    - apply in_app_or in Hin. destruct Hin as [Hin | Hin].
      + apply in_map_iff in Hin. destruct Hin as (c & <- & _).
        by apply curveCommand_heights.
      + simpl in Hin. destruct Hin as [<- | [<- | [<- | []]]]; discriminate. }
  split; [exact Hb|]. intros ->.
  eapply Forall_impl; [exact Hb|]. simpl. intros y Hy. lra.
Qed.

Lemma wave_heights_bounded_witness :
  0 <= 0 /\
  In (CmdM (leftOf 1 8 0 0) 5) (getWaterWavePath 1 5 8 0 0 0 0) /\
  Forall (fun y => y = 5) (cmdYs (CmdM (leftOf 1 8 0 0) 5)).
Proof.
  assert (0 <= 0) as Ha by lra.
  assert (In (CmdM (leftOf 1 8 0 0) 5) (getWaterWavePath 1 5 8 0 0 0 0)) as Hin
    by (rewrite getWaterWavePath_eq; by left).
  split; [exact Ha|]. split; [exact Hin|].
  exact (proj2 (wave_heights_bounded 1 5 8 0 0 0 0 _ Ha Hin eq_refl) eq_refl).
Defined.

(** X4: the heights of the wave repeat every four curves, and two curves
    further they are the heights the curve would have with the amplitude
    negated: the second half of a period is the first one upside down. *)
Theorem curve_heights_periodic (waveLength amplitude left waterLevel : R) (c : nat) :
  cmdYs (curveCommand waveLength amplitude left waterLevel (c + 4)) =
  cmdYs (curveCommand waveLength amplitude left waterLevel c) /\
  cmdYs (curveCommand waveLength amplitude left waterLevel (c + 2)) =
  cmdYs (curveCommand waveLength (- amplitude) left waterLevel c).
Proof.
  pose proof (Nat.mod_upper_bound c 4) as Hlt.
  split; unfold curveCommand.
  - replace ((c + 4) mod 4)%nat with (c mod 4)%nat
      by (rewrite <- (Nat.Div0.add_mod_idemp_r c 4 4); simpl;
          by rewrite Nat.add_0_r).
    destruct (c mod 4)%nat as [|[|[|?]]]; reflexivity.
  - replace ((c + 2) mod 4)%nat with ((c mod 4 + 2) mod 4)%nat
      by (apply Nat.Div0.add_mod_idemp_l).
    destruct (c mod 4)%nat as [|[|[|[|?]]]]; try lia; simpl;
      repeat (f_equal; try lra).
Qed.

(** X5: with a radius that is not positive the loop does not run: the
    path has no curve, [waveRight] keeps its initial 0, and the path is the
    MoveTo, the two LineTo (the first one at 0 + left) and the ClosePath. *)
Theorem getWaterWavePath_no_curve (radius waterLevel waveLength phase amplitude cx cy : R) :
  radius <= 0 -> 0 < waveLength ->
  let left := leftOf radius waveLength phase cx in
  getWaterWavePath radius waterLevel waveLength phase amplitude cx cy =
  [CmdM left waterLevel;
   CmdL (0 + left) (cy + radius);
   CmdL left (cy + radius);
   CmdZ].
Proof.
  intros Hr Hw left.
  assert (Z.to_nat (curvesOf radius waveLength) = 0%nat) as Hc.
  { unfold curvesOf.
    assert (2 * radius / waveLength * 4 <= 0) as Hle.
    { apply Rmult_le_reg_r with waveLength; [done|].
      replace (2 * radius / waveLength * 4 * waveLength) with (8 * radius)
        by (field; lra). lra. }
    pose proof (Zceil_bound (2 * radius / waveLength * 4)) as [Hb _].
    assert (Zceil (2 * radius / waveLength * 4) < 1)%Z by (apply lt_IZR; lra).
    lia. }
  unfold getWaterWavePath, waveLoop. fold left. rewrite Hc. reflexivity.
Qed.

Lemma getWaterWavePath_no_curve_witness :
  0 <= 0 /\ 0 < 1 /\
  getWaterWavePath 0 1 1 0 1 0 0 =
  [CmdM (leftOf 0 1 0 0) 1; CmdL (0 + leftOf 0 1 0 0) (0 + 0);
   CmdL (leftOf 0 1 0 0) (0 + 0); CmdZ].
Proof.
  assert (0 <= 0) as Hr by lra.
  assert (0 < 1) as Hw by lra.
  split; [exact Hr|]. split; [exact Hw|].
  exact (getWaterWavePath_no_curve 0 1 1 0 1 0 0 Hr Hw).
Defined.

Lemma normalizePhase_in_range p :
  - (2 * PI) <= p <= 0 -> normalizePhase p = p.
Proof.
  intros Hp. unfold normalizePhase.
  rewrite phase_up_ge by lra. apply phase_down_le. lra.
Qed.

(** X6: a phase that already lies between -2π and 0 is left as it is, so
    normalizing twice is normalizing once. *)
Theorem normalizePhase_fixed (phase : R) :
  (- (2 * PI) <= phase <= 0 -> normalizePhase phase = phase) /\
  normalizePhase (normalizePhase phase) = normalizePhase phase.
Proof.
  split; [apply normalizePhase_in_range|].
  apply normalizePhase_in_range, normalizePhase_range.
Qed.

Lemma normalizePhase_fixed_witness :
  - (2 * PI) <= - PI <= 0 /\ normalizePhase (- PI) = - PI.
Proof.
  assert (- (2 * PI) <= - PI <= 0) as H by (pose proof PI_RGT_0; lra).
  split; [exact H|]. exact (proj1 (normalizePhase_fixed (- PI)) H).
Defined.

(** X8: for a positive wave length the phase moves the start of the path
    to the left, by one wave length at most: the path starts between
    cx - radius - waveLength - radius * 2 and cx - radius + 0 - radius * 2,
    and at the latter with the phase 0. *)
Theorem wave_start_range (radius waveLength phase cx : R) :
  0 < waveLength ->
  cx - radius + - waveLength - radius * 2 <= leftOf radius waveLength phase cx /\
  leftOf radius waveLength phase cx <= cx - radius + 0 - radius * 2 /\
  (phase = 0 -> leftOf radius waveLength phase cx = cx - radius + 0 - radius * 2).
Proof.
  intros Hw. pose proof PI_RGT_0 as Hpi.
  pose proof (normalizePhase_range phase) as Hrange.
  unfold leftOf.
  set (t := normalizePhase phase / PI / 2).
  assert (normalizePhase phase = t * PI * 2) as Ht by (unfold t; field; lra).
  assert (-1 <= t <= 0) as Hb by (split; nra).
  split; [nra|]. split; [nra|].
  intros ->. unfold t. rewrite normalizePhase_0. f_equal. f_equal.
  unfold Rdiv. lra.
Qed.

Lemma wave_start_range_witness :
  0 < 4 /\
  0 - 1 + - 4 - 1 * 2 <= leftOf 1 4 1 0 /\
  leftOf 1 4 1 0 <= 0 - 1 + 0 - 1 * 2.
Proof.
  assert (0 < 4) as Hw by lra.
  split; [exact Hw|].
  destruct (wave_start_range 1 4 1 0 Hw) as (Hlo & Hhi & _).
  split; [exact Hlo | exact Hhi].
Defined.

Lemma odd_stage (c : nat) :
  Nat.odd c = true -> (c mod 4 = 1 \/ c mod 4 = 3)%nat.
Proof.
  intros Hodd. apply Nat.odd_spec in Hodd. destruct Hodd as [k Hk].
  pose proof (Nat.mod_upper_bound c 4). pose proof (Nat.div_mod_eq c 4). lia.
Qed.

Lemma curveCommand_odd_end waveLength amplitude left waterLevel c :
  Nat.odd c = true ->
  exists x1 y1 x2 y2 x,
    curveCommand waveLength amplitude left waterLevel c =
    CmdC x1 y1 x2 y2 x waterLevel.
Proof.
  intros Hodd. unfold curveCommand.
  destruct (odd_stage c Hodd) as [-> | ->]; simpl;
    replace (- 0 + waterLevel) with waterLevel by lra; eauto 6.
Qed.

(** X9: for a positive radius and wave length the last curve of the path
    ends at the height of the water level, the height the path started
    from: the wave is made of whole half periods. *)
Theorem wave_ends_at_water_level
  (radius waterLevel waveLength phase amplitude cx cy : R) :
  0 < radius -> 0 < waveLength ->
  exists left cs x1 y1 x2 y2 x l1 l2,
    getWaterWavePath radius waterLevel waveLength phase amplitude cx cy =
    CmdM left waterLevel :: cs ++
      [CmdC x1 y1 x2 y2 x waterLevel; l1; l2; CmdZ].
Proof.
  intros Hr Hw.
  pose proof (curvesOf_pos radius waveLength Hr Hw) as Hc.
  rewrite getWaterWavePath_eq.
  set (left := leftOf radius waveLength phase cx).
  assert (exists n, Z.to_nat (curvesOf radius waveLength) = S n /\ Nat.odd n = true)
    as (n & -> & Hodd).
  { unfold curvesOf.
    exists (2 * Z.to_nat (Zceil (2 * radius / waveLength * 4) - 1) + 1)%nat.
    split; [lia|]. rewrite Nat.odd_add, Nat.odd_mul. reflexivity. }
  rewrite seq_S, map_app. simpl.
  destruct (curveCommand_odd_end waveLength amplitude left waterLevel n Hodd)
    as (x1 & y1 & x2 & y2 & x & ->).
  eexists left, _, x1, y1, x2, y2, x, _, _.
  rewrite <- app_assoc. reflexivity.
Qed.

Lemma wave_ends_at_water_level_witness :
  0 < 1 /\ 0 < 8 /\
  exists left cs x1 y1 x2 y2 x l1 l2,
    getWaterWavePath 1 5 8 0 1 0 0 =
    CmdM left 5 :: cs ++ [CmdC x1 y1 x2 y2 x 5; l1; l2; CmdZ].
Proof.
  assert (0 < 1) as Hr by lra.
  assert (0 < 8) as Hw by lra.
  split; [exact Hr|]. split; [exact Hw|].
  exact (wave_ends_at_water_level 1 5 8 0 1 0 0 Hr Hw).
Defined.

End WaveMore.

(** ** More on the style resolvers *)

Section StyleMore.
Import Style Gauge.
Local Open Scope R_scope.

(** X11: the attributes of the waves always have an opacity, and with a
    truthy color they always have a truthy fill: the fill of the style
    when that is truthy, the color otherwise. *)
Theorem getFillAttrs_filled (cfg : Cfg) :
  is_Some (getFillAttrs cfg !! "opacity"%string) /\
  (truthy (color cfg) = true ->
   truthy (get (getFillAttrs cfg) "fill") = true).
Proof.
  unfold getFillAttrs.
  set (merged := spread {[ "opacity"%string := JNum 1 ]} (style cfg)).
  assert (is_Some (merged !! "opacity"%string)) as Hop.
  { unfold merged, spread. destruct (style cfg) as [st|].
    - apply lookup_union_is_Some. right. by eexists.
    - by eexists. }
  split.
  - destruct (truthy (color cfg) && negb (truthy (get merged "fill"))); [|done].
    by rewrite lookup_insert_ne.
  - intros Hc. rewrite Hc. simpl.
    destruct (truthy (get merged "fill")) eqn:Hf; simpl; [done|].
    unfold get. by rewrite lookup_insert_eq.
Qed.

Lemma getFillAttrs_filled_witness :
  truthy (JStr "#f00") = true /\
  truthy (get (getFillAttrs {| style := Some {[ "fill"%string := JNull ]};
                               color := JStr "#f00"; opacity := JUndefined;
                               customInfo := None; points := [] |}) "fill") = true.
Proof.
  split; [reflexivity|].
  apply (proj2 (getFillAttrs_filled
                  {| style := Some {[ "fill"%string := JNull ]};
                     color := JStr "#f00"; opacity := JUndefined;
                     customInfo := None; points := [] |})).
  reflexivity.
Defined.

Local Abbreviation ringDefaults :=
  (list_to_map [("fill"%string, JStr "#fff");
                ("fillOpacity"%string, JNum 0);
                ("lineWidth"%string, JNum 2)] : obj).

Lemma ringBase_eq : mix1 ∅ (Some ringDefaults) = ringDefaults.
Proof.
  unfold mix1. rewrite (right_id_L ∅ (∪)). apply map_filter_id.
  intros i x H. apply elem_of_list_to_map_2 in H.
  rewrite !elem_of_cons, elem_of_nil in H.
  destruct H as [[= -> ->] | [[= -> ->] | [[= -> ->] | []]]]; by split.
Qed.

(** The stroke of the ring, from the attributes [mix] returns. *)
Lemma getLineAttrs_stroke_lookup (cfg : Cfg) :
  let attrs := mix1 ringDefaults (style cfg) in
  getLineAttrs cfg !! "stroke"%string =
  if truthy (color cfg) && negb (truthy (get attrs "stroke"))
  then Some (color cfg) else attrs !! "stroke"%string.
Proof.
  intros attrs. unfold getLineAttrs, mix. rewrite ringBase_eq. fold attrs.
  destruct (isNumber (opacity cfg)).
  - rewrite !lookup_insert_ne by done.
    destruct (truthy (color cfg) && negb (truthy (get attrs "stroke")));
      [apply lookup_insert_eq | done].
  - destruct (truthy (color cfg) && negb (truthy (get attrs "stroke")));
      [apply lookup_insert_eq | done].
Qed.

(** X12: the stroke of the ring is the stroke of the style when that is
    truthy; otherwise it is the color when the color is truthy; and with
    neither a stroke in the style nor a truthy color the ring has no
    stroke. *)
Theorem getLineAttrs_stroke (cfg : Cfg) :
  (forall st v, style cfg = Some st -> st !! "stroke"%string = Some v ->
     truthy v = true -> getLineAttrs cfg !! "stroke"%string = Some v) /\
  (truthy (color cfg) = true ->
   (forall st v, style cfg = Some st -> st !! "stroke"%string = Some v ->
      truthy v = false) ->
   getLineAttrs cfg !! "stroke"%string = Some (color cfg)) /\
  (truthy (color cfg) = false ->
   (forall st, style cfg = Some st -> st !! "stroke"%string = None) ->
   getLineAttrs cfg !! "stroke"%string = None).
Proof.
  pose proof (getLineAttrs_stroke_lookup cfg) as Hlook. cbv zeta in Hlook.
  assert (ringDefaults !! "stroke"%string = None) as Hnone by reflexivity.
  split; [|split].
  - intros st v Hst Hk Hv. rewrite Hlook, Hst.
    assert (mix1 ringDefaults (Some st) !! "stroke"%string = Some v) as Hm
      by (apply mix1_lookup_src; [done | by apply truthy_defined | done]).
    unfold get. rewrite Hm. simpl. by rewrite Hv, andb_false_r.
  - intros Hc Hst. rewrite Hlook, Hc. simpl.
    destruct (truthy (get _ "stroke")) eqn:Hf; simpl; [|done].
    exfalso. unfold get in Hf.
    destruct (style cfg) as [st|] eqn:Hs.
    + destruct (st !! "stroke"%string) as [v|] eqn:Hk.
      * assert (v = JUndefined \/ v <> JUndefined) as [-> | Hv]
          by (destruct v; (by left) || (by right)).
        -- rewrite mix1_lookup_dist, Hnone in Hf; [discriminate|].
           intros st' v' [= <-] Hk'. congruence.
        -- rewrite (mix1_lookup_src _ st _ v) in Hf by done.
           simpl in Hf. rewrite (Hst st v) in Hf; done.
      * rewrite mix1_lookup_dist, Hnone in Hf; [discriminate|].
        intros st' v' [= <-] Hk'. congruence.
    + unfold mix1 in Hf. rewrite Hnone in Hf. discriminate.
  - intros Hc Hst. rewrite Hlook, Hc. simpl.
    rewrite mix1_lookup_dist; [exact Hnone|].
    intros st v Hs Hk. rewrite (Hst st Hs) in Hk. discriminate.
Qed.

Lemma getLineAttrs_stroke_witness :
  truthy (JStr "#f00") = true /\
  getLineAttrs {| style := Some {[ "stroke"%string := JStr "" ]};
                  color := JStr "#f00"; opacity := JUndefined;
                  customInfo := None; points := [] |} !! "stroke"%string =
  Some (JStr "#f00").
Proof.
  split; [reflexivity|].
  apply (proj1 (proj2 (getLineAttrs_stroke
                  {| style := Some {[ "stroke"%string := JStr "" ]};
                     color := JStr "#f00"; opacity := JUndefined;
                     customInfo := None; points := [] |}))); [reflexivity|].
  simpl. intros st v [= <-] Hk.
  apply lookup_singleton_Some in Hk. destruct Hk as [_ <-]. reflexivity.
Defined.

(** X13: the attributes of the ring never hold the value [undefined],
    and they always have a fill, a fillOpacity and a lineWidth. *)
Theorem getLineAttrs_defined (cfg : Cfg) :
  (forall k v, getLineAttrs cfg !! k = Some v -> v <> JUndefined) /\
  is_Some (getLineAttrs cfg !! "fill"%string) /\
  is_Some (getLineAttrs cfg !! "fillOpacity"%string) /\
  is_Some (getLineAttrs cfg !! "lineWidth"%string).
Proof.
  unfold getLineAttrs, mix. rewrite ringBase_eq.
  set (attrs := mix1 ringDefaults (style cfg)).
  assert (forall k v, attrs !! k = Some v -> v <> JUndefined) as Hattrs.
  { apply mix1_defined. intros k v H. apply elem_of_list_to_map_2 in H.
    rewrite !elem_of_cons, elem_of_nil in H.
    destruct H as [[= -> ->] | [[= -> ->] | [[= -> ->] | []]]]; done. }
  assert (forall k, is_Some (ringDefaults !! k) -> is_Some (attrs !! k)) as Hkeep
    by (intros k; apply mix1_keeps).
  set (stroked := if truthy (color cfg) && negb (truthy (get attrs "stroke"))
                  then <[ "stroke"%string := color cfg ]> attrs else attrs).
  assert (forall k v, stroked !! k = Some v -> v <> JUndefined) as Hstroked.
  { unfold stroked.
    destruct (truthy (color cfg)) eqn:Hc; simpl; [|exact Hattrs].
    destruct (negb _); [|exact Hattrs].
    intros k v H. apply lookup_insert_Some in H.
    destruct H as [[_ <-] | [_ H]]; [by apply truthy_defined | by eapply Hattrs]. }
  assert (forall k, is_Some (ringDefaults !! k) -> is_Some (stroked !! k)) as Hk2.
  { intros k Hk. unfold stroked.
    destruct (truthy (color cfg) && negb _); [|by apply Hkeep].
    apply lookup_insert_is_Some'. right. by apply Hkeep. }
  split.
  - destruct (opacity cfg) as [| | b | r | s]; simpl; try exact Hstroked.
    intros k v H.
    apply lookup_insert_Some in H. destruct H as [[_ <-] | [_ H]]; [done|].
    apply lookup_insert_Some in H. destruct H as [[_ <-] | [_ H]]; [done|].
    by eapply Hstroked.
  - assert (forall k, is_Some (ringDefaults !! k) ->
              is_Some ((if isNumber (opacity cfg)
                        then <[ "opacity"%string := opacity cfg ]>
                               (<[ "strokeOpacity"%string := opacity cfg ]> stroked)
                        else stroked) !! k)) as Hk3.
    { intros k Hk. destruct (isNumber (opacity cfg)); [|by apply Hk2].
      apply lookup_insert_is_Some'. right.
      apply lookup_insert_is_Some'. right. by apply Hk2. }
    repeat split; apply Hk3; by eexists.
Qed.

End StyleMore.

(** ** More on the composer, on a canvas-less host *)

Section GaugeMoreWitnesses.
Import Wave Style Gauge.
Local Open Scope R_scope.

Lemma minOfX_min_witness :
  points sampleCfg <> [] /\
  exists m, minOfX (points sampleCfg) = Some m /\
    (forall p, In p (points sampleCfg) -> m <= x p).
Proof.
  assert (points sampleCfg <> []) as Hne by discriminate.
  split; [exact Hne|].
  destruct (proj2 (minOfX_min (points sampleCfg)) Hne) as (m & Hm & Hall & _).
  exists m. split; [exact Hm | exact Hall].
Defined.

Lemma draw_returns_iff_witness :
  is_Some (customInfo sampleCfg) /\
  (2 <= length (points sampleCfg))%nat /\
  exists w',
    draw (fun _ => tt) (fun p => p) circleBBox
      (fun cy => {| x := 0; y := cy |}) (fun _ => None)
      offscreenAnimate sampleCfg (@emptyWorld unit) = Ok tt w'.
Proof.
  assert (is_Some (customInfo sampleCfg)) as Hci by (by eexists).
  assert (2 <= length (points sampleCfg))%nat as Hps by (simpl; lia).
  split; [exact Hci|]. split; [exact Hps|].
  exact (proj2 (draw_returns_iff (fun _ => tt) (fun p => p) circleBBox
      (fun cy => {| x := 0; y := cy |})
                  (fun _ => None) offscreenAnimate sampleCfg (@emptyWorld unit))
               (conj Hci Hps)).
Defined.

Lemma draw_single_point_witness :
  let cfg := {| style := None; color := JStr "#6a99f9"; opacity := JUndefined;
                customInfo := Some ∅; points := [{| x := 0; y := 0.5 |}] |} in
  customInfo cfg = Some ∅ /\
  points cfg = [{| x := 0; y := 0.5 |}] /\
  exists msg w',
    draw (fun _ => tt) (fun p => p) circleBBox
      (fun cy => {| x := 0; y := cy |}) (fun _ => None)
      offscreenAnimate cfg (@emptyWorld unit) = Throw (TypeError msg) w' /\
    container w' = [ChildGroup 0].
Proof.
  intros cfg.
  assert (customInfo cfg = Some ∅) as Hci by reflexivity.
  assert (points cfg = [{| x := 0; y := 0.5 |}]) as Hps by reflexivity.
  split; [exact Hci|]. split; [exact Hps|].
  destruct (draw_single_point (fun _ => tt) (fun p => p) circleBBox
      (fun cy => {| x := 0; y := cy |})
              (fun _ => None) offscreenAnimate cfg ∅ _ (@emptyWorld unit) Hci Hps)
    as (msg & clip & w' & Hrun & Hc & _).
  exists msg, w'. split; [exact Hrun | exact Hc].
Defined.

Lemma draw_geometry_witness :
  customInfo sampleCfg = Some ∅ /\
  points sampleCfg = [{| x := 0; y := 0.5 |}; {| x := 1; y := 0.7 |}] /\
  exists w' ringAttrs,
    draw (fun _ => tt) (fun p => p) circleBBox
      (fun cy => {| x := 0; y := cy |}) (fun _ => None)
      offscreenAnimate sampleCfg (@emptyWorld unit) = Ok tt w' /\
    last (container w') = Some (ChildShape (CircleShape "wrap" ringAttrs)) /\
    ringAttrs !! "fill"%string = Some (JStr "transparent").
Proof.
  assert (customInfo sampleCfg = Some ∅) as Hci by reflexivity.
  assert (points sampleCfg = [{| x := 0; y := 0.5 |}; {| x := 1; y := 0.7 |}])
    as Hps by reflexivity.
  split; [exact Hci|]. split; [exact Hps|].
  destruct (draw_geometry (fun _ => tt) (fun p => p) circleBBox
      (fun cy => {| x := 0; y := cy |})
              (fun _ => None) offscreenAnimate sampleCfg ∅ _ _ _
              (@emptyWorld unit) Hci Hps)
    as (w' & m & clip & waves & ringAttrs & Hrun & _ & _ & _ & _ & _ & _ & Hring
        & _ & _ & _ & Hfill).
  exists w', ringAttrs. split; [exact Hrun|]. split; [exact Hring | exact Hfill].
Defined.

Lemma wave_factor_range_witness :
  (2 < 3)%nat /\
  3500 <= lerp 5000 (0.7 * 5000)
            (if (3 <=? 1)%nat then 0 else INR 2 / (INR 3 - 1)) <= 5000.
Proof.
  assert (2 < 3)%nat as Hi by lia.
  split; [exact Hi|].
  destruct (wave_factor_range 3 2 Hi) as (_ & _ & _ & H & _). exact H.
Defined.

Lemma addWaterWave_all_or_none_witness :
  (forall s m c, is_Some (offscreenAnimate s m c)) /\
  exists w',
    addWaterWave (fun _ => tt) circleBBox (fun _ => None) offscreenAnimate
      0.5 0.5 0.3 3 (getFillAttrs sampleCfg) 0
      {| circle_x := 0.5; circle_y := 0.5; circle_r := 0.45 |} 1.8
      (@oneGroupWorld unit) = Ok tt w' /\
    animations w' = [] /\
    length (console w') = 3%nat.
Proof.
  assert (forall s m c, is_Some (offscreenAnimate s m c)) as Hall
    by (intros; by eexists).
  split; [exact Hall|].
  destruct (addWaterWave_all_or_none (fun _ => tt) circleBBox (fun _ => None)
              offscreenAnimate 0.5 0.5 0.3 3 (getFillAttrs sampleCfg) 0
              {| circle_x := 0.5; circle_y := 0.5; circle_r := 0.45 |} 1.8
              (@oneGroupWorld unit))
    as (w' & Hrun & Hrefuse & _).
  destruct (Hrefuse Hall) as [Ha Hc].
  exists w'. split; [exact Hrun|]. split; [exact Ha|]. by rewrite Hc.
Defined.

Lemma wave_names_distinct_witness :
  groups (@oneGroupWorld unit) !! 0%nat =
    Some {| group_name := "waves"; group_clip := None; group_children := [] |} /\
  exists w' gr' added,
    addWaterWave (fun _ => tt) circleBBox (fun _ => None) offscreenAnimate
      0.5 0.5 0.3 3 (getFillAttrs sampleCfg) 0
      {| circle_x := 0.5; circle_y := 0.5; circle_r := 0.45 |} 1.8
      (@oneGroupWorld unit) = Ok tt w' /\
    groups w' !! 0%nat = Some gr' /\
    group_children gr' = added /\
    NoDup (map shapeName added).
Proof.
  assert (groups (@oneGroupWorld unit) !! 0%nat =
          Some {| group_name := "waves"; group_clip := None; group_children := [] |})
    as Hg by reflexivity.
  split; [exact Hg|].
  destruct (wave_names_distinct (fun _ => tt) circleBBox (fun _ => None)
              offscreenAnimate 0.5 0.5 0.3 3 (getFillAttrs sampleCfg) 0
              {| circle_x := 0.5; circle_y := 0.5; circle_r := 0.45 |} 1.8
              (@oneGroupWorld unit) _ Hg)
    as (w' & gr' & added & Hrun & Hgr & Hch & _ & Hnd).
  exists w', gr', added. split; [exact Hrun|]. split; [exact Hgr|].
  split; [exact Hch | exact Hnd].
Defined.

End GaugeMoreWitnesses.

(** ** The code in binary64 *)

Section DoubleFacts.
Import Wave PrimFloat.
Local Open Scope float_scope.



(** C2 at a negative phase, on the code's numbers: the paths for the
    phases -0.3 and -0.3 - 2π do not start at the same abscissa, the
    first loop giving -0.2999999999999998 back for the second; while
    both 0 and -2π are left as they are. *)
Lemma negative_phase_shift_differs :
  let phase := -0x1.3333333333333p-2 in
  Double.normalizePhase 2 0 = Some 0 /\
  Double.normalizePhase 2 (0 - 2 * Double.PI) = Some (0 - 2 * Double.PI) /\
  exists path path' waveRight x x',
    Double.getWaterWavePath 2 1 0 4 phase 0 0 0 = Some (path, waveRight) /\
    Double.getWaterWavePath 2 1 0 4 (phase - 2 * Double.PI) 0 0 0 =
      Some (path', waveRight) /\
    Double.startX path = Some x /\
    Double.startX path' = Some x' /\
    (x <? x') = true.
Proof.
  split; [reflexivity|]. split; [reflexivity|].
  eexists _, _, _, _, _.
  split; [vm_compute; reflexivity|]. split; [vm_compute; reflexivity|].
  split; [reflexivity|]. split; [reflexivity|]. reflexivity.
Qed.

End DoubleFacts.
